(** * ExpressionMatrix2: the bounded top-k store of similar cell pairs
      (SimilarPairs.hpp), the named-artifact operations declared in
      ExpressionMatrix.hpp and the ClusterGraph constructor
      (ClusterGraph.cpp), embedded as Rocq functions. *)

From stdpp Require Import gmap strings list fin_maps sorting.
From Stdlib Require Import ZArith NArith Lia.
From Stdlib Require Import Floats.SpecFloat.

Local Open Scope nat_scope.

(** ** Identifiers and similarities *)

(** [CellId] is a 32-bit unsigned integer (Ids.hpp); values are kept in [N]
    and every narrowing conversion [CellId(x)] is written out with
    [CellId_of_size]. *)
Abbreviation CellId := N (only parsing).
Abbreviation GeneId := N (only parsing).

Definition CellId_modulus : N := 4294967296.

Definition CellId_of_size (n : nat) : CellId :=
  (N.of_nat n mod CellId_modulus)%N.

(** Modelled from the spec: Ids.hpp is not among the sources; the spec only
    speaks of "an invalid-id sentinel".  It is taken to be the largest value
    of the 32-bit type. *)
Definition invalidCellId : CellId := 4294967295%N.

(** [typedef float CellSimilarity].  The store only copies similarities and
    compares them with [<] and [>]; the non-NaN values of a binary
    floating-point format are linearly ordered and are represented here by
    integers in that order.  Where the value itself matters (the rounding
    of a [double] to the stored [float], below) the integer is the value in
    units of 2^-149, of which every finite [float] is a multiple. *)
Abbreviation CellSimilarity := Z (only parsing).

(** [typedef pair<CellId, CellSimilarity> Pair] (the first cell is implied). *)
Abbreviation Pair := (N * Z)%type (only parsing).

(** ** Failures *)

(** [AssertionFailure] is a failed [CZI_ASSERT]; the other constructors are
    the exceptions of the named-artifact operations. *)
Inductive Error : Type :=
| AssertionFailure
| NotFound (name : string)
| AlreadyExists (name : string).

Inductive Result (A : Type) : Type :=
| Ok (a : A)
| Fail (e : Error).
Arguments Ok {A} a.
Arguments Fail {A} e.

Global Instance Result_ret : MRet Result := λ A a, Ok a.

Global Instance Result_bind : MBind Result := λ A B f r,
  match r with
  | Ok a => f a
  | Fail e => Fail e
  end.

(** ** std::lower_bound on a vector of cell ids

    The loop of the standard library: [len] is the size of the range still
    to be searched, starting at [first]; it is at least halved by each
    iteration, so [length v] iterations always suffice. *)
Fixpoint lower_bound_loop (fuel : nat) (v : list CellId)
    (first len : nat) (val : CellId) : nat :=
  match fuel with
  | O => first
  | S fuel' =>
      if len =? 0 then first
      else
        let half := len / 2 in
        let middle := first + half in
        match v !! middle with
        | Some x =>
            if (x <? val)%N
            then lower_bound_loop fuel' v (middle + 1) (len - half - 1) val
            else lower_bound_loop fuel' v first half val
        | None => first
        end
  end.

Definition lower_bound (v : list CellId) (val : CellId) : nat :=
  lower_bound_loop (length v) v 0 (length v) val.

(** ** The SimilarPairs store *)

(** Some information stored for each cell. *)
Record CellInfo : Type := mkCellInfo {
  usedCount : nat;
  lowestSimilarityIndex : nat;
  lowestSimilarity : CellSimilarity
}.

Global Instance CellInfo_inhabited : Inhabited CellInfo :=
  populate (mkCellInfo 0 0 0%Z).

Record Info : Type := mkInfo {
  Info_k : nat;
  Info_cellCount : CellId
}.

(** [similarPairs] holds [k] slots for each cell, stored contiguously, the
    first [k] referring to cell 0 and so on. *)
Record SimilarPairs : Type := mkSimilarPairs {
  similarPairs : list Pair;
  cellInfo : list CellInfo;
  info : Info;
  geneSet : list GeneId;
  cellSet : list CellId
}.

(** Return k, the maximum number of pairs stored for each cell. *)
Definition k (st : SimilarPairs) : nat := Info_k (info st).


(** [begin(cellId)], as an offset into [similarPairs]. *)
Definition begin_ (st : SimilarPairs) (cellId : CellId) : nat :=
  N.to_nat cellId * k st.

(** [size(cellId)].  Reading [cellInfo] past its end is undefined in the
    source; the total lookup returns a zeroed record there. *)
Definition size_ (st : SimilarPairs) (cellId : CellId) : nat :=
  usedCount (cellInfo st !!! N.to_nat cellId).

Definition end_ (st : SimilarPairs) (cellId : CellId) : nat :=
  begin_ st cellId + size_ st cellId.

(** [operator[](cellId)]: the pairs in [begin, begin + usedCount). *)
Definition operator_brackets (st : SimilarPairs) (cellId : CellId) : list Pair :=
  let b := N.to_nat cellId * k st in
  take (usedCount (cellInfo st !!! N.to_nat cellId)) (drop b (similarPairs st)).

(** Given a cell id local to this SimilarPairs object, return the
    corresponding global CellId. *)
Definition getGlobalCellId (st : SimilarPairs) (localCellId : CellId)
    : Result CellId :=
  if bool_decide (N.to_nat localCellId < length (cellSet st)) then
    match cellSet st !! N.to_nat localCellId with
    | Some g => Ok g
    | None => Fail AssertionFailure
    end
  else Fail AssertionFailure.

(** Inverse of the above.  Returns invalidCellId if none found. *)
Definition getLocalCellId (st : SimilarPairs) (globalCellId : CellId) : CellId :=
  let it := lower_bound (cellSet st) globalCellId in
  if bool_decide (it = length (cellSet st)) then invalidCellId
  else
    match cellSet st !! it with
    | Some x =>
        if bool_decide (x ≠ globalCellId) then invalidCellId
        else CellId_of_size it
    | None => invalidCellId
    end.

(** A cell set is a sorted, duplicate-free vector of 32-bit cell ids. *)
Definition cellSet_ok (cs : list CellId) : Prop :=
  Sorted N.lt cs ∧ Forall (λ x, (x < CellId_modulus)%N) cs.

(** What the binary search maintains: everything left of [first] is below
    [val], everything from [first + len] on is not. *)
Definition lb_inv (v : list CellId) (val : CellId) (first len : nat) : Prop :=
  first + len ≤ length v
  ∧ (∀ i x, i < first → v !! i = Some x → (x < val)%N)
  ∧ (∀ i x, first + len ≤ i → v !! i = Some x → (val ≤ x)%N).

(** ** Creation and insertion

    SimilarPairs.cpp, which holds the bodies of the constructor and of
    [add], [addUnsymmetric], their variants, [exists] and [sort], is not
    among the sources: SimilarPairs.hpp only declares them.  The
    definitions of this part follow sections 3, 4.2 and 7 of the
    specification and work on the data layout of SimilarPairs.hpp. *)

(** Modelled from the spec: the constructor of SimilarPairs.cpp is missing.
    Capacity [k] is fixed at creation and [k = 0] is a precondition
    violation; storage is a flat array of [itemCount * k] Pair slots and a
    parallel array of [itemCount] per-item records with [usedCount] 0; the
    store owns copies of the gene set and of the cell set. *)
Definition create (kk : nat) (gs : list GeneId) (cs : list CellId)
    : Result SimilarPairs :=
  if bool_decide (kk = 0) then Fail AssertionFailure
  else Ok {| similarPairs := replicate (length cs * kk) (0%N, 0%Z);
             cellInfo := replicate (length cs) (mkCellInfo 0 0 0%Z);
             info := mkInfo kk (CellId_of_size (length cs));
             geneSet := gs;
             cellSet := cs |}.

(** Position and value of the lowest similarity of a list of pairs, found by
    one scan from the left that keeps the first minimum. *)
Fixpoint lowest_from (l : list Pair) (i : nat) (best : nat * Z) : nat * Z :=
  match l with
  | [] => best
  | p :: l' =>
      lowest_from l' (S i) (if (p.2 <? best.2)%Z then (i, p.2) else best)
  end.

Definition lowest (l : list Pair) : nat * Z :=
  match l with
  | [] => (0, 0%Z)
  | p :: l' => lowest_from l' 1 (0, p.2)
  end.

(** The store with a new slot array and a new record for cell [c]. *)
Definition set_cell (st : SimilarPairs) (sp : list Pair) (c : nat)
    (ci : CellInfo) : SimilarPairs :=
  {| similarPairs := sp;
     cellInfo := <[c := ci]> (cellInfo st);
     info := info st;
     geneSet := geneSet st;
     cellSet := cellSet st |}.

(** Modelled from the spec: the admission step shared by the low-level
    insertions of SimilarPairs.cpp, which is missing.  While the list of the
    cell is not full the pair takes the next free slot, and the lowest
    similarity is computed when the list becomes full; a full list admits
    the pair only if it beats the current minimum, which it then replaces
    (the minimum is recomputed).  Nothing else is written. *)
Definition store_pair (cellId : CellId) (p : Pair) (st : SimilarPairs)
    : SimilarPairs :=
  let c := N.to_nat cellId in
  let ci := cellInfo st !!! c in
  if usedCount ci <? k st then
    let sp := <[begin_ st cellId + usedCount ci := p]> (similarPairs st) in
    let n := S (usedCount ci) in
    if n =? k st then
      let low := lowest (take n (drop (begin_ st cellId) sp)) in
      set_cell st sp c (mkCellInfo n low.1 low.2)
    else
      set_cell st sp c
        (mkCellInfo n (lowestSimilarityIndex ci) (lowestSimilarity ci))
  else if (lowestSimilarity ci <? p.2)%Z then
    let sp :=
      <[begin_ st cellId + lowestSimilarityIndex ci := p]> (similarPairs st) in
    let low := lowest (take (k st) (drop (begin_ st cellId) sp)) in
    set_cell st sp c (mkCellInfo (usedCount ci) low.1 low.2)
  else st.

(** A local cell id is an index into the cell set vector. *)
Definition inRange (st : SimilarPairs) (cellId : CellId) : Prop :=
  N.to_nat cellId < length (cellSet st).

Global Instance inRange_dec st cellId : Decision (inRange st cellId).
Proof. unfold inRange. apply _. Defined.

(** The two local cell ids of a low-level insertion: the cell whose list
    is written and the partner stored in the pair. *)
Definition idsInRange (st : SimilarPairs) (cellId : CellId) (p : Pair) : Prop :=
  inRange st cellId ∧ inRange st p.1.

Global Instance idsInRange_dec st cellId p : Decision (idsInRange st cellId p).
Proof. unfold idsInRange. apply _. Defined.

(** Is [q] a pair for partner [cellId1]? *)
Definition isPartner (cellId1 : CellId) (q : Pair) : bool := (q.1 =? cellId1)%N.

(** Modelled from the spec: [add(CellId, Pair)] of SimilarPairs.cpp is
    missing.  Insertion of a local id outside [0, itemCount) is a fault,
    raised before anything is written, be it the id of the cell or the id
    of the partner (the header: "Only cell pairs where both cells are in
    the specified cell set are stored"); the duplicate-checked insertion
    first scans the existing entries and stores nothing if the partner is
    already there. *)
Definition add_low (cellId : CellId) (p : Pair) (st : SimilarPairs)
    : Result SimilarPairs :=
  if bool_decide (idsInRange st cellId p) then
    if existsb (isPartner p.1) (operator_brackets st cellId) then Ok st
    else Ok (store_pair cellId p st)
  else Fail AssertionFailure.

(** Modelled from the spec: [addNoDuplicateCheck(CellId, Pair)] of
    SimilarPairs.cpp is missing; the same insertion without the scan. *)
Definition addNoDuplicateCheck_low (cellId : CellId) (p : Pair)
    (st : SimilarPairs) : Result SimilarPairs :=
  if bool_decide (idsInRange st cellId p) then
    Ok (store_pair cellId p st)
  else Fail AssertionFailure.

(** *** The heap discipline

    The list of a cell as a binary min-heap on similarity, laid out in its
    slots in the usual way: the children of slot [i] are slots [2 i + 1]
    and [2 i + 2]. *)

Definition swap (l : list Pair) (i j : nat) : list Pair :=
  match l !! i, l !! j with
  | Some x, Some y => <[i := y]> (<[j := x]> l)
  | _, _ => l
  end.

(** Is the similarity in slot [i] below the one in slot [j]? *)
Definition below (l : list Pair) (i j : nat) : bool :=
  match l !! i, l !! j with
  | Some x, Some y => (x.2 <? y.2)%Z
  | _, _ => false
  end.

Fixpoint sift_up (fuel : nat) (l : list Pair) (i : nat) : list Pair :=
  match fuel with
  | O => l
  | S fuel' =>
      if i =? 0 then l
      else
        let parent := (i - 1) / 2 in
        if below l i parent then sift_up fuel' (swap l i parent) parent
        else l
  end.

Fixpoint sift_down (fuel : nat) (l : list Pair) (i : nat) : list Pair :=
  match fuel with
  | O => l
  | S fuel' =>
      let left := 2 * i + 1 in
      let right := 2 * i + 2 in
      let smallest := if below l left i then left else i in
      let smallest := if below l right smallest then right else smallest in
      if smallest =? i then l
      else sift_down fuel' (swap l i smallest) smallest
  end.

(** Modelled from the spec: the heap-discipline insertion of
    SimilarPairs.cpp is missing.  The list is kept as a bounded min-heap on
    similarity with its root in the first slot; a candidate is admitted
    only if the list is not full or the candidate beats the current
    minimum, which it replaces; the heap is then restored. *)
Definition heap_store (kk : nat) (p : Pair) (l : list Pair) : list Pair :=
  if length l <? kk then sift_up (length l) (l ++ [p]) (length l)
  else
    match l with
    | root :: _ =>
        if (root.2 <? p.2)%Z then sift_down (length l) (<[0 := p]> l) 0
        else l
    | [] => l
    end.

(** Write the list [l] into the slots that start at offset [b]. *)
Definition write_list (b : nat) (l : list Pair) (sp : list Pair) : list Pair :=
  take b sp ++ l ++ drop (b + length l) sp.

(** Modelled from the spec: the heap-discipline insertion of
    SimilarPairs.cpp is missing.  The record of a cell whose list the heap
    discipline has left as [l]: once the list is full, the pair with the
    lowest similarity is the root of the heap, in position 0 (section 3 of
    the specification: [lowestSimilarityIndex] is the slot holding the
    current minimum, [lowestSimilarity] its similarity). *)
Definition heap_record (kk : nat) (ci : CellInfo) (l : list Pair) : CellInfo :=
  match l with
  | root :: _ =>
      if length l =? kk then mkCellInfo (length l) 0 root.2
      else mkCellInfo (length l) (lowestSimilarityIndex ci)
             (lowestSimilarity ci)
  | [] => mkCellInfo 0 (lowestSimilarityIndex ci) (lowestSimilarity ci)
  end.

(** Modelled from the spec: [addNoDuplicateCheckUsingHeap(CellId, Pair)] of
    SimilarPairs.cpp is missing.  The heap discipline applied to the list
    of [cellId], written back to its slots, with the record of the cell
    kept as above; a local id outside [0, itemCount) is a fault. *)
Definition addNoDuplicateCheckUsingHeap_low (cellId : CellId) (p : Pair)
    (st : SimilarPairs) : Result SimilarPairs :=
  if bool_decide (idsInRange st cellId p) then
    let c := N.to_nat cellId in
    let ci := cellInfo st !!! c in
    let l := heap_store (k st) p (operator_brackets st cellId) in
    Ok (set_cell st (write_list (begin_ st cellId) l (similarPairs st)) c
          (heap_record (k st) ci l))
  else Fail AssertionFailure.

(** *** The public insertions *)

(** Modelled from the spec: the bodies of the public insertions are in the
    missing SimilarPairs.cpp.  [add] and its variants attempt the insertion
    into the list of [cellId0] for partner [cellId1] and into the list of
    [cellId1] for partner [cellId0].  The header gives them a [double]
    similarity, and a Pair holds a [float]: [similarity] is here the value
    after that conversion, which is written out where the strategies call
    the insertions ([narrowed], below). *)
Definition add (cellId0 cellId1 : CellId) (similarity : CellSimilarity)
    (st : SimilarPairs) : Result SimilarPairs :=
  st1 ← add_low cellId0 (cellId1, similarity) st;
  add_low cellId1 (cellId0, similarity) st1.

Definition addNoDuplicateCheck (cellId0 cellId1 : CellId)
    (similarity : CellSimilarity) (st : SimilarPairs) : Result SimilarPairs :=
  st1 ← addNoDuplicateCheck_low cellId0 (cellId1, similarity) st;
  addNoDuplicateCheck_low cellId1 (cellId0, similarity) st1.

Definition addNoDuplicateCheckUsingHeap (cellId0 cellId1 : CellId)
    (similarity : CellSimilarity) (st : SimilarPairs) : Result SimilarPairs :=
  st1 ← addNoDuplicateCheckUsingHeap_low cellId0 (cellId1, similarity) st;
  addNoDuplicateCheckUsingHeap_low cellId1 (cellId0, similarity) st1.

(** Modelled from the spec: the unsymmetric insertions of the missing
    SimilarPairs.cpp insert only into the list of [cellId0] (the header:
    "This only adds to the list for cellId0"). *)
Definition addUnsymmetric (cellId0 cellId1 : CellId)
    (similarity : CellSimilarity) (st : SimilarPairs) : Result SimilarPairs :=
  add_low cellId0 (cellId1, similarity) st.

Definition addUnsymmetricNoDuplicateCheck (cellId0 cellId1 : CellId)
    (similarity : CellSimilarity) (st : SimilarPairs) : Result SimilarPairs :=
  addNoDuplicateCheck_low cellId0 (cellId1, similarity) st.

Definition addUnsymmetricNoDuplicateCheckUsingHeap (cellId0 cellId1 : CellId)
    (similarity : CellSimilarity) (st : SimilarPairs) : Result SimilarPairs :=
  addNoDuplicateCheckUsingHeap_low cellId0 (cellId1, similarity) st.

(** Modelled from the spec: [addUnsymmetricNoCheck] is declared with the
    other unsymmetric insertions, under the same comment ("This only adds
    to the list for cellId0"), and its body is in the missing
    SimilarPairs.cpp.  The specification has no insertion that exceeds the
    capacity (sections 4.2 and 7) or accepts a local id out of range
    (section 4.2); the one check it lets an insertion leave out is the scan
    for a duplicate partner (sections 4.2 and 9).  The function is
    therefore the admission step for [cellId0] without that scan. *)
Definition addUnsymmetricNoCheck (cellId0 cellId1 : CellId)
    (similarity : CellSimilarity) (st : SimilarPairs) : Result SimilarPairs :=
  addNoDuplicateCheck_low cellId0 (cellId1, similarity) st.

(** Modelled from the spec: [exists] of SimilarPairs.cpp is missing.  A
    linear scan of the current list of [cellId0] for partner [cellId1]. *)
Definition exists_ (st : SimilarPairs) (cellId0 cellId1 : CellId) : bool :=
  existsb (isPartner cellId1) (operator_brackets st cellId0).

(** *** Sequences of insertions *)

Inductive Insertion : Type :=
| Add (cellId0 cellId1 : CellId) (similarity : CellSimilarity)
| AddNoDuplicateCheck (cellId0 cellId1 : CellId) (similarity : CellSimilarity)
| AddNoDuplicateCheckUsingHeap (cellId0 cellId1 : CellId)
    (similarity : CellSimilarity)
| AddUnsymmetric (cellId0 cellId1 : CellId) (similarity : CellSimilarity)
| AddUnsymmetricNoDuplicateCheck (cellId0 cellId1 : CellId)
    (similarity : CellSimilarity)
| AddUnsymmetricNoDuplicateCheckUsingHeap (cellId0 cellId1 : CellId)
    (similarity : CellSimilarity)
| AddUnsymmetricNoCheck (cellId0 cellId1 : CellId)
    (similarity : CellSimilarity).

Definition insert (i : Insertion) (st : SimilarPairs) : Result SimilarPairs :=
  match i with
  | Add c0 c1 s => add c0 c1 s st
  | AddNoDuplicateCheck c0 c1 s => addNoDuplicateCheck c0 c1 s st
  | AddNoDuplicateCheckUsingHeap c0 c1 s =>
      addNoDuplicateCheckUsingHeap c0 c1 s st
  | AddUnsymmetric c0 c1 s => addUnsymmetric c0 c1 s st
  | AddUnsymmetricNoDuplicateCheck c0 c1 s =>
      addUnsymmetricNoDuplicateCheck c0 c1 s st
  | AddUnsymmetricNoDuplicateCheckUsingHeap c0 c1 s =>
      addUnsymmetricNoDuplicateCheckUsingHeap c0 c1 s st
  | AddUnsymmetricNoCheck c0 c1 s => addUnsymmetricNoCheck c0 c1 s st
  end.

Fixpoint insertAll (l : list Insertion) (st : SimilarPairs)
    : Result SimilarPairs :=
  match l with
  | [] => Ok st
  | i :: l' => st' ← insert i st; insertAll l' st'
  end.

Definition similarityOf (i : Insertion) : CellSimilarity :=
  match i with
  | Add _ _ s | AddNoDuplicateCheck _ _ s | AddNoDuplicateCheckUsingHeap _ _ s
  | AddUnsymmetric _ _ s | AddUnsymmetricNoDuplicateCheck _ _ s
  | AddUnsymmetricNoDuplicateCheckUsingHeap _ _ s
  | AddUnsymmetricNoCheck _ _ s => s
  end.


(** The two local cell ids an insertion is given. *)
Definition cellIds (i : Insertion) : list CellId :=
  match i with
  | Add c0 c1 _ | AddNoDuplicateCheck c0 c1 _
  | AddNoDuplicateCheckUsingHeap c0 c1 _
  | AddUnsymmetric c0 c1 _ | AddUnsymmetricNoDuplicateCheck c0 c1 _
  | AddUnsymmetricNoDuplicateCheckUsingHeap c0 c1 _
  | AddUnsymmetricNoCheck c0 c1 _ => [c0; c1]
  end.

(** *** Sorting and the candidate strategies *)

(** Decreasing similarity: [p] may come before [q]. *)
Definition bySimilarityGreater : relation Pair := λ p q, (q.2 ≤ p.2)%Z.

Global Instance bySimilarityGreater_dec p q :
  Decision (bySimilarityGreater p q) := Z_le_dec q.2 p.2.

(** Reorder the list of one cell by decreasing similarity, in place. *)
Definition sort_cell (st : SimilarPairs) (c : nat) : SimilarPairs :=
  let cellId := N.of_nat c in
  {| similarPairs :=
       write_list (begin_ st cellId)
         (merge_sort bySimilarityGreater (operator_brackets st cellId))
         (similarPairs st);
     cellInfo := cellInfo st;
     info := info st;
     geneSet := geneSet st;
     cellSet := cellSet st |}.

(** Modelled from the spec: [sort] of SimilarPairs.cpp is missing.  It
    reorders each item's list by decreasing similarity. *)
Definition sort (st : SimilarPairs) : SimilarPairs :=
  foldl sort_cell st (seq 0 (length (cellSet st))).

(** The strategies work on [double] values: [similarityThreshold] is a
    [double] (ExpressionMatrix.hpp) and so is the similarity the public
    insertions are given (SimilarPairs.hpp), while a Pair holds a [float].
    A similarity is therefore tested against the threshold as a [double]
    and narrowed on its way into the store.  The strategies are embedded
    over a type [D] of [double] values, with [leD] standing for [<=] on it
    and [narrow] for the conversion to the stored type, so that nothing is
    assumed of either unless a statement says so; the IEEE instance
    follows. *)

(** The insertion a strategy uses for a candidate pair. *)
Inductive InsertionKind : Type :=
| UseAdd
| UseAddNoDuplicateCheck
| UseAddNoDuplicateCheckUsingHeap
| UseAddUnsymmetric
| UseAddUnsymmetricNoDuplicateCheck
| UseAddUnsymmetricNoDuplicateCheckUsingHeap
| UseAddUnsymmetricNoCheck.

Definition insertion (kind : InsertionKind) (cellId0 cellId1 : CellId)
    (similarity : CellSimilarity) : Insertion :=
  match kind with
  | UseAdd => Add cellId0 cellId1 similarity
  | UseAddNoDuplicateCheck => AddNoDuplicateCheck cellId0 cellId1 similarity
  | UseAddNoDuplicateCheckUsingHeap =>
      AddNoDuplicateCheckUsingHeap cellId0 cellId1 similarity
  | UseAddUnsymmetric => AddUnsymmetric cellId0 cellId1 similarity
  | UseAddUnsymmetricNoDuplicateCheck =>
      AddUnsymmetricNoDuplicateCheck cellId0 cellId1 similarity
  | UseAddUnsymmetricNoDuplicateCheckUsingHeap =>
      AddUnsymmetricNoDuplicateCheckUsingHeap cellId0 cellId1 similarity
  | UseAddUnsymmetricNoCheck => AddUnsymmetricNoCheck cellId0 cellId1 similarity
  end.

(** A candidate pair a strategy has scored. *)
Record Candidate (D : Type) : Type := mkCandidate {
  candidateKind : InsertionKind;
  candidateCellId0 : CellId;
  candidateCellId1 : CellId;
  candidateSimilarity : D
}.
Arguments mkCandidate {D} candidateKind candidateCellId0 candidateCellId1
  candidateSimilarity.
Arguments candidateKind {D} _.
Arguments candidateCellId0 {D} _.
Arguments candidateCellId1 {D} _.
Arguments candidateSimilarity {D} _.

(** Modelled from the spec: the bodies of the strategies are missing.  The
    candidates a strategy emits are those whose similarity is at least the
    threshold (section 4.4: no emitted pair has similarity below the
    threshold; ExpressionMatrix.hpp: "the minimum similarity for a pair to
    be stored"). *)
Definition emitted {D} (leD : D → D → bool) (similarityThreshold : D)
    (candidates : list (Candidate D)) : list (Candidate D) :=
  filter (λ c, leD similarityThreshold (candidateSimilarity c) = true)
    candidates.

(** Modelled from the spec: the call of the insertion for an emitted
    candidate, in the missing bodies of the strategies and of the public
    insertions; the similarity becomes a [float]. *)
Definition narrowed {D} (narrow : D → CellSimilarity) (c : Candidate D)
    : Insertion :=
  insertion (candidateKind c) (candidateCellId0 c) (candidateCellId1 c)
    (narrow (candidateSimilarity c)).

(** Modelled from the spec: the bodies of findSimilarPairs0, 4, 5, 6 and 7
    are missing (ExpressionMatrix.hpp declares them).  Section 4.4 gives
    the contract the strategies share: fewer than two items is an error;
    the store is created with capacity [k]; each evaluated candidate pair
    is inserted unless its similarity is below the threshold; the strategy
    finishes by calling [sort].  Which pairs are evaluated, their scores
    (exact or estimated from signatures) and the insertion variant used are
    the strategy's own and are the argument [candidates]. *)
Definition findSimilarPairs {D} (leD : D → D → bool)
    (narrow : D → CellSimilarity) (kk : nat) (gs : list GeneId)
    (cs : list CellId) (similarityThreshold : D)
    (candidates : list (Candidate D)) : Result SimilarPairs :=
  if bool_decide (length cs < 2) then Fail AssertionFailure
  else
    st0 ← create kk gs cs;
    st1 ← insertAll
            (narrowed narrow <$> emitted leD similarityThreshold candidates) st0;
    Ok (sort st1).

(** *** IEEE doubles and floats

    [double] values as the binary64 numbers of the standard library's
    specification of IEEE 754 arithmetic ([spec_float], with its NaN,
    infinities and signed zeros), compared with [SFleb]. *)






(** ** Invariants of the store *)

(** The layout of SimilarPairs.hpp: [k] slots and one record per cell, no
    record counts more than [k] used slots or points outside its slots. *)
Definition wf (st : SimilarPairs) : Prop :=
  0 < k st
  ∧ length (cellInfo st) = length (cellSet st)
  ∧ length (similarPairs st) = length (cellSet st) * k st
  ∧ Forall (λ ci, usedCount ci ≤ k st ∧ lowestSimilarityIndex ci < k st)
      (cellInfo st).

(** [m] is the minimum of the similarities stored in [l]. *)
Definition minimum_of (m : CellSimilarity) (l : list Pair) : Prop :=
  (∃ p, p ∈ l ∧ p.2 = m) ∧ Forall (λ p, (m ≤ p.2)%Z) l.

(** The record of [cellId] describes its list: once the list is full, the
    slot [lowestSimilarityIndex] holds a pair of similarity
    [lowestSimilarity], which is the minimum of the list. *)
Definition lowest_ok (st : SimilarPairs) (cellId : CellId) : Prop :=
  let ci := cellInfo st !!! N.to_nat cellId in
  let l := operator_brackets st cellId in
  usedCount ci = k st →
  (∃ partner, l !! lowestSimilarityIndex ci = Some (partner, lowestSimilarity ci))
  ∧ minimum_of (lowestSimilarity ci) l.

(** [st'] differs from [st] at most in the [k] slots and in the record of
    [cellId]. *)
Definition only_writes_cell (cellId : CellId) (st st' : SimilarPairs) : Prop :=
  info st' = info st
  ∧ geneSet st' = geneSet st
  ∧ cellSet st' = cellSet st
  ∧ length (similarPairs st') = length (similarPairs st)
  ∧ length (cellInfo st') = length (cellInfo st)
  ∧ (∀ c', c' ≠ N.to_nat cellId → cellInfo st' !! c' = cellInfo st !! c')
  ∧ (∀ j, ¬ (begin_ st cellId ≤ j < begin_ st cellId + k st) →
       similarPairs st' !! j = similarPairs st !! j).

(** Every cell's record describes its list. *)
Definition all_lowest_ok (st : SimilarPairs) : Prop :=
  ∀ cellId, inRange st cellId → lowest_ok st cellId.

(** Every pair stored in the list of some cell satisfies [P]. *)
Definition stored (P : N * Z → Prop) (st : SimilarPairs) : Prop :=
  ∀ cellId, inRange st cellId → Forall P (operator_brackets st cellId).










(** ** A small store used to exercise the statements below *)

Definition example_cellSet : list CellId := [3; 5; 9]%N.

Definition example_insertions : list Insertion :=
  [Add 0 1 50; Add 0 2 30; Add 1 2 70; AddUnsymmetric 0 2 35;
   AddUnsymmetricNoDuplicateCheck 2 1 80; Add 0 1 60; Add 2 0 5].

Definition example_empty : SimilarPairs :=
  {| similarPairs := replicate 6 (0%N, 0%Z);
     cellInfo := replicate 3 (mkCellInfo 0 0 0%Z);
     info := mkInfo 2 3;
     geneSet := [];
     cellSet := example_cellSet |}.

Definition example_store : SimilarPairs :=
  Eval vm_compute in
    match insertAll example_insertions example_empty with
    | Ok st => st
    | Fail _ => example_empty
    end.

(** The stores a program can hold before [sort]: created, then filled by
    some sequence of insertions. *)
Definition reachable (st : SimilarPairs) : Prop :=
  ∃ kk gs cs ops st0, create kk gs cs = Ok st0 ∧ insertAll ops st0 = Ok st.







(** ** Calls with a local cell id *)





(** ** Named SimilarPairs objects of an ExpressionMatrix *)

(** Modelled from the spec: the bodies of [removeSimilarPairs] and of the
    functions that create or open a SimilarPairs object by name are missing
    (ExpressionMatrix.hpp declares them and says that removal "throws an
    exception if the requested SimilarPairs object does not exist").  The
    named artifacts are a finite map from names to stores.  Creation under
    an existing name is rejected with an already-exists error; query and
    removal of a missing name fail with a not-found error. *)
Definition createSimilarPairs (name : string) (kk : nat) (gs : list GeneId)
    (cs : list CellId) (m : gmap string SimilarPairs)
    : Result (gmap string SimilarPairs) :=
  match m !! name with
  | Some _ => Fail (AlreadyExists name)
  | None => st ← create kk gs cs; Ok (<[name := st]> m)
  end.

(** Modelled from the spec: opening a SimilarPairs object by name (the
    constructor [SimilarPairs(name, allowReadOnly)] is only declared). *)
Definition getSimilarPairs (name : string) (m : gmap string SimilarPairs)
    : Result SimilarPairs :=
  match m !! name with
  | Some st => Ok st
  | None => Fail (NotFound name)
  end.

(** Modelled from the spec: [removeSimilarPairs] is only declared, with the
    comment quoted above. *)
Definition removeSimilarPairs (name : string) (m : gmap string SimilarPairs)
    : Result (gmap string SimilarPairs) :=
  match m !! name with
  | Some _ => Ok (delete name m)
  | None => Fail (NotFound name)
  end.

(** The precondition violations of section 7 of the specification, as
    failures of this model. *)
Definition isPreconditionViolation (e : Error) : Prop :=
  match e with
  | AssertionFailure | AlreadyExists _ => True
  | NotFound _ => False
  end.

(** ** ClusterGraph.cpp: the constructor of the cluster graph *)

(** The fields of a vertex of the cell similarity graph that the
    constructor reads. *)
Module CellSimilarityGraphVertex.
Record t : Type := mk { cellId : CellId; clusterId : N }.
End CellSimilarityGraphVertex.

(** A vertex of the cluster graph ([averageGeneExpression] is filled in
    later, by other code). *)
Module ClusterGraphVertex.
Record t : Type := mk { clusterId : N; cells : list CellId }.
End ClusterGraphVertex.

(** Graphs as an arena of vertices and a list of edges between indices
    into it; a vertex descriptor is the index of the vertex. *)
Record CellSimilarityGraph : Type := mkCellSimilarityGraph {
  cellVertices : list CellSimilarityGraphVertex.t;
  cellEdges : list (nat * nat)
}.

Record ClusterGraph : Type := mkClusterGraph {
  vertices : list ClusterGraphVertex.t;
  edges : list (nat * nat)
}.

(** Every edge of a graph joins two of its vertices. *)
Definition graph_ok (g : CellSimilarityGraph) : Prop :=
  Forall (λ e, e.1 < length (cellVertices g) ∧ e.2 < length (cellVertices g))
    (cellEdges g).

(** The body of the first loop: look for a vertex for the cluster of
    [cVertex]; create one if there is none, otherwise add the cell to it. *)
Definition addCell (state : gmap N nat * list ClusterGraphVertex.t)
    (cVertex : CellSimilarityGraphVertex.t)
    : Result (gmap N nat * list ClusterGraphVertex.t) :=
  let vertexMap := state.1 in
  let vs := state.2 in
  let clusterId := CellSimilarityGraphVertex.clusterId cVertex in
  match vertexMap !! clusterId with
  | None =>
      let v := length vs in
      Ok (<[clusterId := v]> vertexMap,
          vs ++ [ClusterGraphVertex.mk clusterId
                   [CellSimilarityGraphVertex.cellId cVertex]])
  | Some v =>
      match vs !! v with
      | Some vertex =>
          if bool_decide (ClusterGraphVertex.clusterId vertex = clusterId) then
            Ok (vertexMap,
                <[v := ClusterGraphVertex.mk
                         (ClusterGraphVertex.clusterId vertex)
                         (ClusterGraphVertex.cells vertex
                            ++ [CellSimilarityGraphVertex.cellId cVertex])]> vs)
          else Fail AssertionFailure
      | None => Fail AssertionFailure
      end
  end.

Fixpoint addCells (cVertices : list CellSimilarityGraphVertex.t)
    (state : gmap N nat * list ClusterGraphVertex.t)
    : Result (gmap N nat * list ClusterGraphVertex.t) :=
  match cVertices with
  | [] => Ok state
  | cVertex :: rest => state' ← addCell state cVertex; addCells rest state'
  end.

(** [add_edge] on an edge container that is a set: an edge that already
    exists is not created.  ClusterGraph.hpp, which fixes whether the graph
    is undirected, is not among the sources, so this is the argument
    [undirected]; in an undirected graph the edge between [v1] and [v0] is
    the edge between [v0] and [v1]. *)
Definition has_edge (undirected : bool) (es : list (nat * nat))
    (v0 v1 : nat) : bool :=
  bool_decide ((v0, v1) ∈ es) || (undirected && bool_decide ((v1, v0) ∈ es)).

Definition add_edge (undirected : bool) (v0 v1 : nat) (es : list (nat * nat))
    : list (nat * nat) :=
  if has_edge undirected es v0 v1 then es else es ++ [(v0, v1)].

(** The body of the second loop. *)
Definition addClusterEdge (undirected : bool) (g : CellSimilarityGraph)
    (vertexMap : gmap N nat) (es : list (nat * nat)) (ce : nat * nat)
    : Result (list (nat * nat)) :=
  match cellVertices g !! ce.1, cellVertices g !! ce.2 with
  | Some cVertex0, Some cVertex1 =>
      match vertexMap !! CellSimilarityGraphVertex.clusterId cVertex0,
            vertexMap !! CellSimilarityGraphVertex.clusterId cVertex1 with
      | Some v0, Some v1 =>
          if bool_decide (v0 ≠ v1) then Ok (add_edge undirected v0 v1 es)
          else Ok es
      | _, _ => Fail AssertionFailure
      end
  | _, _ => Fail AssertionFailure
  end.

Fixpoint addClusterEdges (undirected : bool) (g : CellSimilarityGraph)
    (vertexMap : gmap N nat) (ces : list (nat * nat)) (es : list (nat * nat))
    : Result (list (nat * nat)) :=
  match ces with
  | [] => Ok es
  | ce :: rest =>
      es' ← addClusterEdge undirected g vertexMap es ce;
      addClusterEdges undirected g vertexMap rest es'
  end.

(** Create the ClusterGraph from the CellSimilarityGraph. *)
Definition ClusterGraph_ctor (undirected : bool) (g : CellSimilarityGraph)
    : Result ClusterGraph :=
  state ← addCells (cellVertices g) (∅, []);
  es ← addClusterEdges undirected g state.1 (cellEdges g) [];
  Ok (mkClusterGraph state.2 es).

(** What the first loop maintains, [seen] being the cells visited so far:
    the map sends a cluster id to the index of the one vertex that carries
    it, and the cells of a vertex are the visited cells of its cluster, in
    the order of the visit. *)
Definition cells_of_cluster (seen : list CellSimilarityGraphVertex.t)
    (clusterId : N) : list CellId :=
  CellSimilarityGraphVertex.cellId
    <$> filter (λ cv, CellSimilarityGraphVertex.clusterId cv = clusterId) seen.

Definition clusters_inv (seen : list CellSimilarityGraphVertex.t)
    (state : gmap N nat * list ClusterGraphVertex.t) : Prop :=
  (∀ c v, state.1 !! c = Some v
          ↔ (ClusterGraphVertex.clusterId <$> state.2) !! v = Some c)
  ∧ (∀ v vertex, state.2 !! v = Some vertex →
       ClusterGraphVertex.cells vertex
       = cells_of_cluster seen (ClusterGraphVertex.clusterId vertex)
       ∧ ClusterGraphVertex.clusterId vertex
         ∈ CellSimilarityGraphVertex.clusterId <$> seen)
  ∧ (∀ cv, cv ∈ seen →
       is_Some (state.1 !! CellSimilarityGraphVertex.clusterId cv)).

Definition example_graph : CellSimilarityGraph :=
  mkCellSimilarityGraph
    [CellSimilarityGraphVertex.mk 10 7; CellSimilarityGraphVertex.mk 11 4;
     CellSimilarityGraphVertex.mk 12 7; CellSimilarityGraphVertex.mk 13 9;
     CellSimilarityGraphVertex.mk 14 4]
    [(0, 1); (0, 2); (1, 2); (4, 0); (3, 4); (1, 3)].

(** What the second loop maintains: edges join two distinct vertices of the
    cluster graph and no edge is there twice (in either direction, when the
    graph is undirected). *)
Definition edges_inv (undirected : bool) (n : nat) (es : list (nat * nat))
    : Prop :=
  (∀ e, e ∈ es → e.1 ≠ e.2 ∧ e.1 < n ∧ e.2 < n)
  ∧ NoDup es
  ∧ (undirected = true → ∀ v0 v1, (v0, v1) ∈ es → (v1, v0) ∉ es).

Definition example_clusterGraph : ClusterGraph :=
  Eval vm_compute in
    match ClusterGraph_ctor true example_graph with
    | Ok cg => cg
    | Fail _ => mkClusterGraph [] []
    end.


(** ** The layout the accessors rely on *)

(** What SimilarPairs.hpp says of its two arrays: [similarPairs] holds "all
    the pairs we could possibly store (k of them for each cell)", one run of
    [k] slots per record of [cellInfo], and [usedCount] "can be up to k". *)
Definition layout_ok (st : SimilarPairs) : Prop :=
  length (similarPairs st) = length (cellInfo st) * k st
  ∧ Forall (λ ci, usedCount ci ≤ k st) (cellInfo st).


(** The cell edge [ce] joins a cell of the cluster kept in vertex [v0] to a
    cell of the cluster kept in vertex [v1], as the second loop of the
    constructor finds them. *)
Definition cluster_endpoints (g : CellSimilarityGraph) (vertexMap : gmap N nat)
    (ce : nat * nat) (v0 v1 : nat) : Prop :=
  ∃ cVertex0 cVertex1,
    cellVertices g !! ce.1 = Some cVertex0
    ∧ cellVertices g !! ce.2 = Some cVertex1
    ∧ vertexMap !! CellSimilarityGraphVertex.clusterId cVertex0 = Some v0
    ∧ vertexMap !! CellSimilarityGraphVertex.clusterId cVertex1 = Some v1.


(** ** ClusterGraph.cpp: the similarities of the edges

    [computeSimilarities], [removeWeakEdges] and the vertex writer work on
    [double] values.  They are embedded over an arbitrary type [S] of
    values with the comparison [less] standing for [<], so that nothing is
    assumed of the comparison unless a statement says so.  The headers
    that declare the graph, regressionCoefficient and
    OrderPairsBySecondGreater are not among the sources. *)

(** An edge of the cluster graph: its two vertices ([source(e, graph)],
    [target(e, graph)]) and its property, the similarity. *)
Record ClusterGraphEdge (S : Type) : Type := mkClusterGraphEdge {
  source : nat;
  target : nat;
  similarity : S
}.
Arguments mkClusterGraphEdge {S} source target similarity.
Arguments source {S} _.
Arguments target {S} _.
Arguments similarity {S} _.

(** An edge descriptor names the edge by its two vertices, which is enough
    in a graph that keeps no parallel edges. *)
Definition edge_descriptor {S} (e : ClusterGraphEdge S) : nat * nat :=
  (source e, target e).

(** Store in each edge the similarity of the two clusters, computed using
    the clusters average expression stored in each vertex.
    [averageGeneExpression] is that field of the vertices, indexed by
    vertex; [regressionCoefficient] is the function of the missing
    regressionCoefficient.hpp.  An edge of a graph joins two of its
    vertices, so the lookups are in range; the total lookup gives a default
    outside. *)
Definition computeSimilarities {S E} `{Inhabited E}
    (regressionCoefficient : E → E → S) (averageGeneExpression : list E)
    (es : list (ClusterGraphEdge S)) : list (ClusterGraphEdge S) :=
  (λ e, mkClusterGraphEdge (source e) (target e)
          (regressionCoefficient (averageGeneExpression !!! source e)
             (averageGeneExpression !!! target e))) <$> es.

(** [boost::remove_edge(e, graph)]. *)
Definition remove_edge {S} (e : nat * nat) (es : list (ClusterGraphEdge S))
    : list (ClusterGraphEdge S) :=
  filter (λ e', edge_descriptor e' ≠ e) es.

(** The first loop of [removeWeakEdges]. *)
Definition edgesToBeRemoved {S} (less : S → S → bool) (similarityThreshold : S)
    (es : list (ClusterGraphEdge S)) : list (nat * nat) :=
  edge_descriptor
    <$> filter (λ e, less (similarity e) similarityThreshold = true) es.

(** Remove edges with low similarity. *)
Definition removeWeakEdges {S} (less : S → S → bool) (similarityThreshold : S)
    (es : list (ClusterGraphEdge S)) : list (ClusterGraphEdge S) :=
  foldl (λ es' e, remove_edge e es') es
    (edgesToBeRemoved less similarityThreshold es).

(** *** The rows of a vertex label *)

(** The loop that fills [sortedExpressionCounts] before it is sorted, with
    the pairs (gene id, average expression).  Its counter [geneId] is a
    32-bit gene id: it is compared with the size of the vector, which is a
    64-bit number, and incremented modulo 2^32.  [fuel] is the number of
    tests of the loop condition that are run; [None] says that the loop has
    not been left by then. *)
Fixpoint expressionCounts_loop {V} (fuel : nat) (averageGeneExpression : list V)
    (geneId : GeneId) (sortedExpressionCounts : list (N * V))
    : option (list (N * V)) :=
  match fuel with
  | O => None
  | S fuel' =>
      if (geneId <? N.of_nat (length averageGeneExpression))%N then
        match averageGeneExpression !! N.to_nat geneId with
        | Some x =>
            expressionCounts_loop fuel' averageGeneExpression
              ((geneId + 1) mod 4294967296)%N
              (sortedExpressionCounts ++ [(geneId, x)])
        | None => None
        end
      else Some sortedExpressionCounts
  end.

(** The loop run for one test more than the vector has entries, which is
    what a counter that does not wrap around needs. *)
Definition expressionCounts {V} (averageGeneExpression : list V)
    : option (list (N * V)) :=
  expressionCounts_loop (Datatypes.S (length averageGeneExpression))
    averageGeneExpression 0%N [].

(** [OrderPairsBySecondGreater] is declared in the missing orderPairs.hpp;
    it is taken to be what its name says, [x.second > y.second]. *)
Definition OrderPairsBySecondGreater {S} (less : S → S → bool)
    (x y : N * S) : bool :=
  less y.2 x.2.

(** [p] may stand before [q] in a vector sorted with the comparator. *)
Definition sortedBefore {S} (less : S → S → bool) : relation (N * S) :=
  λ p q, OrderPairsBySecondGreater less q p = false.

Global Instance sortedBefore_dec {S} (less : S → S → bool) p q :
  Decision (sortedBefore less p q).
Proof. unfold sortedBefore. apply _. Defined.

(** The loop that writes the rows: it stops at the first pair whose
    expression is below [minimum] (0.2 in the source). *)
Fixpoint labelRows {S} (less : S → S → bool) (minimum : S)
    (sortedExpressionCounts : list (N * S)) : list (N * S) :=
  match sortedExpressionCounts with
  | [] => []
  | p :: rest =>
      if less p.2 minimum then [] else p :: labelRows less minimum rest
  end.

(** The genes a vertex label lists, with their average expression: the
    loop that collects the pairs, [std::sort] with the comparator, then the
    loop above.  [std::sort] is the parameter [sort]: the order it leaves
    between pairs of equal expression is its own, and a statement names
    what it uses of its contract. *)
Definition vertexLabelRows {S} (sort : list (N * S) → list (N * S))
    (less : S → S → bool) (minimum : S) (averageGeneExpression : list S)
    : option (list (N * S)) :=
  sortedExpressionCounts ← expressionCounts averageGeneExpression;
  Some (labelRows less minimum (sort sortedExpressionCounts)).

Definition example_edges : list (ClusterGraphEdge Z) :=
  [mkClusterGraphEdge 0 1 40%Z; mkClusterGraphEdge 2 1 15%Z;
   mkClusterGraphEdge 0 2 70%Z; mkClusterGraphEdge 3 1 5%Z].

(* ===================================================================== *)
(** * Properties *)
(* ===================================================================== *)

(** ** Local and global cell ids *)

Section LowerBound.
Variable v : list CellId.
Variable val : CellId.

Hypothesis v_sorted :
  ∀ i j x y, v !! i = Some x → v !! j = Some y → i ≤ j → (x ≤ y)%N.

Lemma lower_bound_loop_spec fuel : ∀ first len,
  len ≤ fuel → lb_inv v val first len →
  lb_inv v val (lower_bound_loop fuel v first len val) 0.
Proof.
  induction fuel as [|fuel IH]; intros first len Hfuel (Hlen & Hlo & Hhi);
    cbn [lower_bound_loop].
  - assert (len = 0) as -> by lia. repeat split; auto.
  - destruct (Nat.eqb_spec len 0) as [->|Hne]; [repeat split; auto|].
    assert (Hhalf : len / 2 < len) by (apply Nat.div_lt; lia).
    assert (Hfuel' : len / 2 ≤ fuel).
    { pose proof (Nat.div_mod_eq len 2).
      pose proof (Nat.mod_upper_bound len 2). lia. }
    destruct (lookup_lt_is_Some_2 v (first + len / 2)) as [x Hx]; [lia|].
    rewrite Hx. destruct (N.ltb_spec x val) as [Hlt|Hge].
    + apply IH; [lia|]. repeat split; [lia| |].
      * intros i y Hi Hy.
        assert (y ≤ x)%N by (eapply (v_sorted i (first + len / 2)); eauto; lia).
        lia.
      * intros i y Hi Hy. apply (Hhi i); [lia|done].
    + apply IH; [lia|]. repeat split; [lia|done|].
      intros i y Hi Hy.
      assert (x ≤ y)%N by (eapply (v_sorted (first + len / 2) i); eauto; lia).
      lia.
Qed.

Lemma lower_bound_spec :
  let r := lower_bound v val in
  r ≤ length v
  ∧ (∀ i x, i < r → v !! i = Some x → (x < val)%N)
  ∧ (∀ i x, r ≤ i → v !! i = Some x → (val ≤ x)%N).
Proof.
  destruct (lower_bound_loop_spec (length v) 0 (length v)) as (H1 & H2 & H3).
  - done.
  - repeat split; [lia|intros; lia|].
    intros i x Hi Hx. apply lookup_lt_Some in Hx. simpl in Hi. lia.
  - unfold lower_bound. repeat split; [lia|done|].
    intros i x Hi Hx. apply (H3 i); [lia|done].
Qed.
End LowerBound.

Lemma Sorted_lt_lookup (cs : list CellId) i j x y :
  Sorted N.lt cs → cs !! i = Some x → cs !! j = Some y → i < j → (x < y)%N.
Proof.
  intros Hs. apply (Sorted_StronglySorted _) in Hs.
  revert i j. induction Hs as [|a l Hl IH Hall]; intros i j Hi Hj Hij; [done|].
  destruct j as [|j]; [lia|]. destruct i as [|i]; simpl in *.
  - injection Hi as ->. rewrite Forall_forall in Hall.
    apply Hall. by eapply list_elem_of_lookup_2.
  - apply (IH i j); [done|done|lia].
Qed.

Lemma Sorted_lt_index_le (cs : list CellId) i x :
  Sorted N.lt cs → cs !! i = Some x → (N.of_nat i ≤ x)%N.
Proof.
  intros Hs. revert x. induction i as [|i IH]; intros x Hx; [lia|].
  destruct (lookup_lt_is_Some_2 cs i) as [y Hy].
  { apply lookup_lt_Some in Hx. lia. }
  specialize (IH y Hy).
  assert (y < x)%N by (eapply (Sorted_lt_lookup cs i (S i)); eauto).
  lia.
Qed.

(** The binary search finds the position of a member of a sorted cell set. *)
Lemma lower_bound_member (cs : list CellId) i g :
  Sorted N.lt cs → cs !! i = Some g → lower_bound cs g = i.
Proof.
  intros Hs Hi.
  destruct (lower_bound_spec cs g) as (Hle & Hlo & Hhi).
  { intros a b x y Ha Hb Hab. destruct (decide (a = b)) as [->|].
    - rewrite Ha in Hb. injection Hb as ->. lia.
    - assert (x < y)%N by (eapply (Sorted_lt_lookup cs a b); eauto; lia). lia. }
  simpl in *. set (r := lower_bound cs g) in *.
  destruct (lt_eq_lt_dec r i) as [[Hlt|Heq]|Hgt]; [|done|].
  - destruct (lookup_lt_is_Some_2 cs r) as [x Hx].
    { apply lookup_lt_Some in Hi. lia. }
    assert (g ≤ x)%N by (apply (Hhi r); [lia|done]).
    assert (x < g)%N by (eapply (Sorted_lt_lookup cs r i); eauto).
    lia.
  - assert (g < g)%N by (apply (Hlo i); [lia|done]). lia.
Qed.

(** C3.  For a sorted, duplicate-free cell set of 32-bit ids: the local id
    of a member [g] is a valid index below the number of cells and
    [getGlobalCellId] maps it back to [g]; for a global id that is not in
    the cell set [getLocalCellId] returns [invalidCellId]. *)
Theorem getLocalCellId_roundtrip (st : SimilarPairs) :
  cellSet_ok (cellSet st) →
  (∀ g, g ∈ cellSet st →
     N.to_nat (getLocalCellId st g) < length (cellSet st)
     ∧ getGlobalCellId st (getLocalCellId st g) = Ok g)
  ∧ (∀ g, g ∉ cellSet st → getLocalCellId st g = invalidCellId).
Proof.
  intros [Hs Hr]. split.
  - intros g Hin. apply list_elem_of_lookup in Hin as [i Hi].
    assert (Hlen : i < length (cellSet st)) by (by eapply lookup_lt_Some).
    assert (Hloc : getLocalCellId st g = N.of_nat i).
    { unfold getLocalCellId. rewrite (lower_bound_member _ i g Hs Hi).
      rewrite bool_decide_eq_false_2 by lia. rewrite Hi.
      rewrite bool_decide_eq_false_2 by (intros ?; congruence).
      unfold CellId_of_size. apply N.mod_small.
      pose proof (Sorted_lt_index_le _ _ _ Hs Hi).
      rewrite Forall_forall in Hr.
      assert (g < CellId_modulus)%N.
      { apply Hr. by eapply list_elem_of_lookup_2. }
      lia. }
    rewrite Hloc. unfold getGlobalCellId. rewrite Nat2N.id.
    rewrite bool_decide_eq_true_2 by done. by rewrite Hi.
  - intros g Hnin. unfold getLocalCellId.
    case_bool_decide; [done|].
    destruct (cellSet st !! lower_bound (cellSet st) g) as [x|] eqn:Hx; [|done].
    case_bool_decide; [done|]. exfalso. apply Hnin.
    assert (x = g) as <- by (destruct (decide (x = g)); [done|contradiction]).
    by eapply list_elem_of_lookup_2.
Qed.

(** ** Slots and lists *)

Lemma write_list_length b (l sp : list Pair) :
  b + length l ≤ length sp → length (write_list b l sp) = length sp.
Proof.
  intros H. unfold write_list.
  rewrite !length_app, length_take, length_drop. lia.
Qed.

Lemma write_list_lookup b (l sp : list Pair) j :
  b + length l ≤ length sp →
  write_list b l sp !! j =
    if bool_decide (b ≤ j < b + length l) then l !! (j - b) else sp !! j.
Proof.
  intros H. unfold write_list.
  destruct (decide (j < b)) as [Hlt|Hge].
  - rewrite bool_decide_eq_false_2 by lia.
    rewrite lookup_app_l by (rewrite length_take; lia).
    apply lookup_take_lt. lia.
  - rewrite lookup_app_r by (rewrite length_take; lia).
    rewrite length_take, Nat.min_l by lia.
    destruct (decide (j - b < length l)) as [Hin|Hout].
    + rewrite bool_decide_eq_true_2 by lia. by rewrite lookup_app_l.
    + rewrite bool_decide_eq_false_2 by lia.
      rewrite lookup_app_r by lia. rewrite lookup_drop. f_equal. lia.
Qed.

(** The list of a cell, slot by slot. *)
Lemma operator_brackets_lookup st cellId i :
  operator_brackets st cellId !! i =
    if bool_decide (i < size_ st cellId)
    then similarPairs st !! (begin_ st cellId + i) else None.
Proof.
  unfold operator_brackets, size_, begin_. case_bool_decide.
  - rewrite lookup_take_lt by done. by rewrite lookup_drop.
  - apply lookup_take_ge. lia.
Qed.

Lemma operator_brackets_length st cellId :
  wf st → inRange st cellId →
  length (operator_brackets st cellId) = size_ st cellId.
Proof.
  intros (Hk & Hci & Hsp & Hall) Hr. unfold operator_brackets, size_, inRange in *.
  rewrite length_take, length_drop, Hsp.
  destruct (lookup_lt_is_Some_2 (cellInfo st) (N.to_nat cellId)) as [ci Hx];
    [lia|].
  rewrite (list_lookup_total_correct _ _ _ Hx).
  rewrite Forall_forall in Hall.
  destruct (Hall ci) as [Hu _]; [by eapply list_elem_of_lookup_2|].
  nia.
Qed.

(** Two stores that agree on the slots and on the record of a cell agree on
    its list. *)
Lemma operator_brackets_ext st st' cellId :
  k st' = k st →
  cellInfo st' !!! N.to_nat cellId = cellInfo st !!! N.to_nat cellId →
  (∀ i, i < size_ st cellId →
     similarPairs st' !! (begin_ st cellId + i)
     = similarPairs st !! (begin_ st cellId + i)) →
  operator_brackets st' cellId = operator_brackets st cellId.
Proof.
  intros Hk Hci Hslots. apply list_eq. intros i.
  rewrite !operator_brackets_lookup. unfold size_, begin_ in *.
  rewrite Hci, Hk. case_bool_decide; [|done]. by apply Hslots.
Qed.

(** ** The scan for the lowest similarity *)

Lemma lowest_from_spec (l : list Pair) : ∀ i best,
  let r := lowest_from l i best in
  (r = best ∨ ∃ j partner, l !! j = Some (partner, r.2) ∧ r.1 = i + j)
  ∧ (r.2 ≤ best.2)%Z
  ∧ Forall (λ p, (r.2 ≤ p.2)%Z) l.
Proof.
  induction l as [|p l IH]; intros i best; cbn [lowest_from].
  - split; [by left|]. split; [lia|constructor].
  - set (best' := if (p.2 <? best.2)%Z then (i, p.2) else best).
    destruct (IH (S i) best') as (Hwhere & Hle & Hall).
    assert (Hb : (best'.2 ≤ best.2)%Z ∧ (best'.2 ≤ p.2)%Z
                 ∧ (best' = best ∨ best' = (i, p.2))).
    { unfold best'. destruct (Z.ltb_spec p.2 best.2); simpl; repeat split;
        auto; lia. }
    destruct Hb as (Hb1 & Hb2 & Hb3).
    split; [|split; [lia|constructor; [lia|done]]].
    destruct Hwhere as [Heq|(j & partner & Hj & Hidx)].
    + rewrite Heq. destruct Hb3 as [->| ->]; [by left|].
      right. exists 0, p.1. simpl. split; [by destruct p|lia].
    + right. exists (S j), partner. simpl. split; [done|lia].
Qed.

Lemma lowest_spec (l : list Pair) :
  l ≠ [] →
  (lowest l).1 < length l
  ∧ (∃ partner, l !! (lowest l).1 = Some (partner, (lowest l).2))
  ∧ minimum_of (lowest l).2 l.
Proof.
  destruct l as [|p l]; [done|]. intros _. cbn [lowest].
  destruct (lowest_from_spec l 1 (0, p.2)) as (Hwhere & Hle & Hall).
  simpl in Hle.
  assert (Hat : ∃ partner,
            (p :: l) !! (lowest_from l 1 (0, p.2)).1
            = Some (partner, (lowest_from l 1 (0, p.2)).2)).
  { destruct Hwhere as [->|(j & partner & Hj & ->)].
    - exists p.1. by destruct p.
    - by exists partner. }
  destruct Hat as [partner Hat]. split; [by eapply lookup_lt_Some|].
  split; [by exists partner|]. split.
  - exists (partner, (lowest_from l 1 (0, p.2)).2). split; [|done].
    by eapply list_elem_of_lookup_2.
  - by constructor.
Qed.

(** ** One admission step *)

Lemma store_pair_cases st cellId p :
  let c := N.to_nat cellId in
  let ci := cellInfo st !!! c in
  let b := begin_ st cellId in
  (usedCount ci < k st
   ∧ ∃ i m,
       let sp := <[b + usedCount ci := p]> (similarPairs st) in
       store_pair cellId p st
       = set_cell st sp c (mkCellInfo (S (usedCount ci)) i m)
       ∧ (S (usedCount ci) = k st →
          i = (lowest (take (k st) (drop b sp))).1
          ∧ m = (lowest (take (k st) (drop b sp))).2)
       ∧ (S (usedCount ci) ≠ k st →
          i = lowestSimilarityIndex ci ∧ m = lowestSimilarity ci))
  ∨ (k st ≤ usedCount ci ∧ (lowestSimilarity ci < p.2)%Z
     ∧ let sp := <[b + lowestSimilarityIndex ci := p]> (similarPairs st) in
       store_pair cellId p st
       = set_cell st sp c
           (mkCellInfo (usedCount ci) (lowest (take (k st) (drop b sp))).1
              (lowest (take (k st) (drop b sp))).2))
  ∨ (k st ≤ usedCount ci ∧ (p.2 ≤ lowestSimilarity ci)%Z
     ∧ store_pair cellId p st = st).
Proof.
  intros c ci b. unfold store_pair. fold c. fold ci. fold b.
  destruct (Nat.ltb_spec (usedCount ci) (k st)) as [Hlt|Hge].
  - left. split; [done|].
    destruct (Nat.eqb_spec (S (usedCount ci)) (k st)) as [Heq|Hne].
    + eexists _, _. split; [reflexivity|]. rewrite Heq. split; [done|lia].
    + eexists _, _. split; [reflexivity|]. split; [lia|done].
  - destruct (Z.ltb_spec (lowestSimilarity ci) p.2) as [Hlow|Hlow].
    + right. left. done.
    + right. right. done.
Qed.

Lemma set_cell_own st sp cellId ci :
  N.to_nat cellId < length (cellInfo st) →
  operator_brackets (set_cell st sp (N.to_nat cellId) ci) cellId
  = take (usedCount ci) (drop (begin_ st cellId) sp).
Proof.
  intros Hc. unfold operator_brackets, set_cell, begin_, k. simpl.
  by rewrite list_lookup_total_insert_eq.
Qed.

Lemma set_cell_other st sp cellId ci cellId' :
  cellId' ≠ cellId →
  cellInfo (set_cell st sp (N.to_nat cellId) ci) !!! N.to_nat cellId'
  = cellInfo st !!! N.to_nat cellId'.
Proof.
  intros Hne. unfold set_cell. simpl.
  apply list_lookup_total_insert_ne. intros Heq. apply Hne.
  by apply N2Nat.inj.
Qed.

(** ** Writes stay inside the slots of the owner *)

Lemma only_writes_cell_refl cellId st : only_writes_cell cellId st st.
Proof. by repeat split. Qed.

Lemma wf_record st cellId :
  wf st → inRange st cellId →
  usedCount (cellInfo st !!! N.to_nat cellId) ≤ k st
  ∧ lowestSimilarityIndex (cellInfo st !!! N.to_nat cellId) < k st.
Proof.
  intros (Hk & Hci & Hsp & Hall) Hr. unfold inRange in Hr.
  destruct (lookup_lt_is_Some_2 (cellInfo st) (N.to_nat cellId)) as [ci Hx];
    [lia|].
  rewrite (list_lookup_total_correct _ _ _ Hx).
  rewrite Forall_forall in Hall. apply Hall. by eapply list_elem_of_lookup_2.
Qed.

Lemma size_le_k st cellId : wf st → size_ st cellId ≤ k st.
Proof.
  intros Hwf. unfold size_.
  destruct (decide (N.to_nat cellId < length (cellSet st))) as [Hr|Hr].
  - by apply wf_record.
  - destruct Hwf as (Hk & Hci & _).
    rewrite list_lookup_total_alt, lookup_ge_None_2 by lia. simpl. lia.
Qed.

Lemma set_cell_insert_writes st cellId x p ci :
  x < k st →
  only_writes_cell cellId st
    (set_cell st (<[begin_ st cellId + x := p]> (similarPairs st))
       (N.to_nat cellId) ci).
Proof.
  intros Hx. unfold only_writes_cell, set_cell. simpl.
  repeat split; try done.
  - apply length_insert.
  - apply length_insert.
  - intros c' Hne. by apply list_lookup_insert_ne.
  - intros j Hj. apply list_lookup_insert_ne. lia.
Qed.

Lemma set_cell_write_list_writes st cellId l ci :
  wf st → inRange st cellId → length l ≤ k st →
  only_writes_cell cellId st
    (set_cell st (write_list (begin_ st cellId) l (similarPairs st))
       (N.to_nat cellId) ci).
Proof.
  intros (Hk & Hci & Hsp & Hall) Hr Hl. unfold inRange in Hr.
  assert (Hfit : begin_ st cellId + length l ≤ length (similarPairs st)).
  { rewrite Hsp. unfold begin_. nia. }
  unfold only_writes_cell, set_cell. simpl. repeat split; try done.
  - by apply write_list_length.
  - apply length_insert.
  - intros c' Hne. by apply list_lookup_insert_ne.
  - intros j Hj. rewrite write_list_lookup by done.
    rewrite bool_decide_eq_false_2; [done|lia].
Qed.

Lemma store_pair_writes st cellId p :
  wf st → inRange st cellId →
  only_writes_cell cellId st (store_pair cellId p st).
Proof.
  intros Hwf Hr. destruct (wf_record st cellId Hwf Hr) as [Hu Hi].
  destruct (store_pair_cases st cellId p)
    as [(Hlt & i & m & -> & _)|[(Hge & Hlow & ->)|(Hge & Hlow & ->)]].
  - by apply set_cell_insert_writes.
  - by apply set_cell_insert_writes.
  - apply only_writes_cell_refl.
Qed.

(** The list and the record of every other cell are untouched. *)
Lemma only_writes_cell_other cellId st st' cellId' :
  wf st → only_writes_cell cellId st st' → cellId' ≠ cellId →
  operator_brackets st' cellId' = operator_brackets st cellId'
  ∧ cellInfo st' !!! N.to_nat cellId' = cellInfo st !!! N.to_nat cellId'.
Proof.
  intros Hwf (Hinfo & _ & _ & _ & _ & Hrec & Hslots) Hne.
  assert (Hc : N.to_nat cellId' ≠ N.to_nat cellId)
    by (intros Heq; apply Hne; by apply N2Nat.inj).
  assert (Hci : cellInfo st' !!! N.to_nat cellId'
                = cellInfo st !!! N.to_nat cellId').
  { rewrite !list_lookup_total_alt. by rewrite Hrec. }
  split; [|done]. apply operator_brackets_ext; [unfold k; by rewrite Hinfo|done|].
  intros i Hi. apply Hslots. pose proof (size_le_k st cellId' Hwf).
  unfold begin_. nia.
Qed.

(** A write to one cell that leaves its record within bounds keeps the
    layout. *)
Lemma only_writes_cell_wf cellId st st' :
  wf st → only_writes_cell cellId st st' →
  usedCount (cellInfo st' !!! N.to_nat cellId) ≤ k st →
  lowestSimilarityIndex (cellInfo st' !!! N.to_nat cellId) < k st →
  wf st'.
Proof.
  intros (Hk & Hci & Hsp & Hall) (Hinfo & _ & Hcs & Hlsp & Hlci & Hrec & _) Hu Hi.
  assert (Hk' : k st' = k st) by (unfold k; by rewrite Hinfo).
  unfold wf. rewrite Hk', Hcs, Hlsp, Hlci. repeat split; try done.
  rewrite Forall_lookup. intros c' ci' Hc'.
  destruct (decide (c' = N.to_nat cellId)) as [->|Hne].
  - rewrite (list_lookup_total_correct _ _ _ Hc') in Hu, Hi. done.
  - rewrite Hrec in Hc' by done. rewrite Forall_lookup in Hall. by eapply Hall.
Qed.

(** ** What one admission step does to the list of its cell *)

Lemma slots_of_cell st cellId :
  wf st → inRange st cellId →
  k st ≤ length (drop (begin_ st cellId) (similarPairs st)).
Proof.
  intros (Hk & Hci & Hsp & Hall) Hr. unfold inRange in Hr.
  rewrite length_drop, Hsp. unfold begin_. nia.
Qed.

Lemma drop_begin_insert st cellId x p :
  drop (begin_ st cellId) (<[begin_ st cellId + x := p]> (similarPairs st))
  = <[x := p]> (drop (begin_ st cellId) (similarPairs st)).
Proof.
  rewrite drop_insert_ge by lia. f_equal. lia.
Qed.

Lemma store_pair_own_list st cellId p :
  wf st → inRange st cellId →
  let ci := cellInfo st !!! N.to_nat cellId in
  let l := operator_brackets st cellId in
  let st' := store_pair cellId p st in
  (usedCount ci < k st
   ∧ operator_brackets st' cellId = l ++ [p]
   ∧ size_ st' cellId = S (usedCount ci))
  ∨ (usedCount ci = k st ∧ (lowestSimilarity ci < p.2)%Z
     ∧ operator_brackets st' cellId = <[lowestSimilarityIndex ci := p]> l
     ∧ size_ st' cellId = k st)
  ∨ (usedCount ci = k st ∧ (p.2 ≤ lowestSimilarity ci)%Z ∧ st' = st).
Proof.
  intros Hwf Hr ci l st'.
  destruct (wf_record st cellId Hwf Hr) as [Hu Hi]. fold ci in Hu, Hi.
  pose proof (slots_of_cell st cellId Hwf Hr) as Hslots.
  assert (Hc : N.to_nat cellId < length (cellInfo st)).
  { destruct Hwf as (_ & -> & _). exact Hr. }
  destruct (store_pair_cases st cellId p)
    as [(Hlt & i & m & Hst & _)|[(Hge & Hlow & Hst)|(Hge & Hlow & Hst)]];
    fold ci in Hlt || fold ci in Hge; fold ci in Hst; cbv zeta in Hst.
  - left. split; [done|]. subst st'. rewrite Hst. split.
    + rewrite set_cell_own by done. simpl. rewrite drop_begin_insert.
      erewrite take_S_r; [|apply list_lookup_insert_eq; lia].
      rewrite take_insert_ge by lia. done.
    + unfold size_, set_cell. simpl. by rewrite list_lookup_total_insert_eq.
  - right. left. assert (Heq : usedCount ci = k st) by lia.
    split; [done|]. split; [done|]. subst st'. rewrite Hst. split.
    + rewrite set_cell_own by done. simpl. rewrite drop_begin_insert.
      rewrite take_insert_lt by lia. done.
    + unfold size_, set_cell. simpl. by rewrite list_lookup_total_insert_eq.
  - right. right. split; [lia|]. split; [done|]. done.
Qed.

Lemma store_pair_record st cellId p :
  wf st → inRange st cellId →
  let st' := store_pair cellId p st in
  size_ st' cellId ≤ k st
  ∧ lowestSimilarityIndex (cellInfo st' !!! N.to_nat cellId) < k st
  ∧ (lowest_ok st cellId → lowest_ok st' cellId).
Proof.
  intros Hwf Hr st'.
  destruct (wf_record st cellId Hwf Hr) as [Hu Hi].
  pose proof (slots_of_cell st cellId Hwf Hr) as Hslots.
  assert (Hk : 0 < k st) by apply Hwf.
  assert (Hc : N.to_nat cellId < length (cellInfo st)).
  { destruct Hwf as (_ & -> & _). exact Hr. }
  set (ci := cellInfo st !!! N.to_nat cellId) in *.
  assert (Hfull : ∀ sp : list (N * Z), length (drop (begin_ st cellId) sp) = length
              (drop (begin_ st cellId) (similarPairs st)) →
            take (k st) (drop (begin_ st cellId) sp) ≠ []).
  { intros sp Hsp Hnil. apply (f_equal length) in Hnil.
    rewrite length_take in Hnil. simpl in Hnil. lia. }
  destruct (store_pair_cases st cellId p)
    as [(Hlt & i & m & Hst & Hfull' & Hnot)|[(Hge & Hl & Hst)|(Hge & Hl & Hst)]];
    fold ci in Hlt || fold ci in Hge; fold ci in Hst; cbv zeta in *.
  - subst st'. rewrite Hst. unfold size_, lowest_ok.
    rewrite set_cell_own by done. unfold set_cell at 1 2 3 4. simpl.
    rewrite list_lookup_total_insert_eq by done. simpl.
    split; [fold ci; lia|].
    destruct (decide (S (usedCount ci) = k st)) as [Heq|Hne].
    + destruct (Hfull' Heq) as [-> ->]. fold ci. rewrite Heq.
      edestruct lowest_spec as (H1 & H2 & H3);
        [apply (Hfull (<[begin_ st cellId + usedCount ci := p]> (similarPairs st)))|].
      { by rewrite !length_drop, length_insert. }
      rewrite length_take, length_drop, length_insert in H1.
      split; [lia|]. intros _ _. done.
    + destruct (Hnot Hne) as [-> ->]. split; [done|].
      intros _ Habs. unfold k in Habs, Hne. simpl in Habs. lia.
  - subst st'. rewrite Hst. unfold size_, lowest_ok.
    rewrite set_cell_own by done. unfold set_cell at 1 2 3 4. simpl.
    rewrite list_lookup_total_insert_eq by done. simpl.
    split; [done|]. assert (Heq : usedCount ci = k st) by lia.
    edestruct lowest_spec as (H1 & H2 & H3);
      [apply (Hfull (<[begin_ st cellId + lowestSimilarityIndex ci := p]>
                       (similarPairs st)))|].
    { by rewrite !length_drop, length_insert. }
    rewrite length_take, length_drop, length_insert in H1.
    split; [lia|]. intros _ _. rewrite Heq. done.
  - subst st'. rewrite Hst. done.
Qed.

(** ** The heap discipline keeps the length and the stored pairs *)

Lemma swap_length l i j : length (swap l i j) = length l.
Proof.
  unfold swap. destruct (l !! i), (l !! j); try done.
  by rewrite !length_insert.
Qed.

Lemma swap_Forall (P : N * Z → Prop) l i j : Forall P l → Forall P (swap l i j).
Proof.
  intros H. unfold swap.
  destruct (l !! i) as [x|] eqn:Hi; [|done].
  destruct (l !! j) as [y|] eqn:Hj; [|done].
  rewrite Forall_forall in H.
  apply Forall_insert; [apply Forall_insert|].
  - by rewrite Forall_forall.
  - apply H. by eapply list_elem_of_lookup_2.
  - apply H. by eapply list_elem_of_lookup_2.
Qed.

Lemma sift_up_length fuel : ∀ l i, length (sift_up fuel l i) = length l.
Proof.
  induction fuel as [|fuel IH]; intros l i; cbn [sift_up]; [done|].
  destruct (i =? 0); [done|].
  destruct (below l i ((i - 1) / 2)); [|done].
  by rewrite IH, swap_length.
Qed.

Lemma sift_up_Forall (P : N * Z → Prop) fuel : ∀ l i,
  Forall P l → Forall P (sift_up fuel l i).
Proof.
  induction fuel as [|fuel IH]; intros l i H; cbn [sift_up]; [done|].
  destruct (i =? 0); [done|].
  destruct (below l i ((i - 1) / 2)); [|done].
  by apply IH, swap_Forall.
Qed.

Lemma sift_down_length fuel : ∀ l i, length (sift_down fuel l i) = length l.
Proof.
  induction fuel as [|fuel IH]; intros l i; cbn [sift_down]; [done|].
  cbv zeta. destruct (_ =? i); [done|]. by rewrite IH, swap_length.
Qed.

Lemma sift_down_Forall (P : N * Z → Prop) fuel : ∀ l i,
  Forall P l → Forall P (sift_down fuel l i).
Proof.
  induction fuel as [|fuel IH]; intros l i H; cbn [sift_down]; [done|].
  cbv zeta. destruct (_ =? i); [done|]. by apply IH, swap_Forall.
Qed.

Lemma heap_store_length kk p l :
  length l ≤ kk →
  length l ≤ length (heap_store kk p l) ≤ kk.
Proof.
  intros H. unfold heap_store.
  destruct (Nat.ltb_spec (length l) kk).
  - rewrite sift_up_length, length_app. simpl. lia.
  - destruct l as [|root l']; [simpl; lia|].
    destruct (root.2 <? p.2)%Z; [|lia].
    rewrite sift_down_length, length_insert. lia.
Qed.

Lemma heap_store_Forall (P : N * Z → Prop) kk p l :
  P p → Forall P l → Forall P (heap_store kk p l).
Proof.
  intros Hp Hl. unfold heap_store.
  destruct (length l <? kk).
  - apply sift_up_Forall. apply Forall_app. split; [done|by constructor].
  - destruct l as [|root l']; [done|].
    destruct (root.2 <? p.2)%Z; [|done].
    apply sift_down_Forall. by apply Forall_insert.
Qed.

(** ** The heap discipline keeps the list a heap *)



Lemma swap_lookup (l : list (N * Z)) i j x y n :
  l !! i = Some x → l !! j = Some y →
  swap l i j !! n
  = if decide (n = i) then Some y
    else if decide (n = j) then Some x else l !! n.
Proof.
  intros Hi Hj. unfold swap. rewrite Hi, Hj.
  destruct (decide (n = i)) as [->|Hni].
  - apply list_lookup_insert_eq. rewrite length_insert.
    by eapply lookup_lt_Some.
  - rewrite list_lookup_insert_ne by done.
    destruct (decide (n = j)) as [->|Hnj].
    + apply list_lookup_insert_eq. by eapply lookup_lt_Some.
    + by rewrite list_lookup_insert_ne.
Qed.

Lemma swap_Permutation (l : list (N * Z)) i j : swap l i j ≡ₚ l.
Proof.
  destruct (l !! i) as [x|] eqn:Hi; [|by unfold swap; rewrite Hi].
  destruct (l !! j) as [y|] eqn:Hj; [|by unfold swap; rewrite Hi, Hj].
  apply Permutation_inj. split; [apply swap_length|].
  exists (λ n, if decide (n = i) then j else if decide (n = j) then i else n).
  split.
  - intros a b Hab. repeat case_decide; lia.
  - intros n. rewrite (swap_lookup l i j x y n Hi Hj).
    repeat case_decide; by subst.
Qed.

Lemma sift_up_Permutation fuel : ∀ l i, sift_up fuel l i ≡ₚ l.
Proof.
  induction fuel as [|fuel IH]; intros l i; cbn [sift_up]; [done|].
  destruct (i =? 0); [done|].
  destruct (below l i ((i - 1) / 2)); [|done].
  by rewrite IH, swap_Permutation.
Qed.










(** ** The low-level insertions *)

Lemma write_list_own b (l sp : list (N * Z)) :
  b ≤ length sp → take (length l) (drop b (write_list b l sp)) = l.
Proof.
  intros H. unfold write_list.
  rewrite drop_app_length' by (rewrite length_take; lia).
  by rewrite take_app_length.
Qed.

Lemma only_writes_cell_k cellId st st' :
  only_writes_cell cellId st st' → k st' = k st.
Proof. intros (Hinfo & _). unfold k. by rewrite Hinfo. Qed.

Lemma only_writes_cell_inRange cellId st st' cellId' :
  only_writes_cell cellId st st' → inRange st' cellId' ↔ inRange st cellId'.
Proof. intros (_ & _ & Hcs & _). unfold inRange. by rewrite Hcs. Qed.

Lemma store_pair_ok cellId p st :
  wf st → inRange st cellId →
  only_writes_cell cellId st (store_pair cellId p st)
  ∧ wf (store_pair cellId p st).
Proof.
  intros Hwf Hr. pose proof (store_pair_writes st cellId p Hwf Hr) as Hw.
  split; [done|].
  destruct (store_pair_record st cellId p Hwf Hr) as (Hu & Hi & _).
  by eapply only_writes_cell_wf.
Qed.

(** What a low-level insertion that returns has done. *)
Lemma add_low_Ok cellId p st st' :
  add_low cellId p st = Ok st' →
  idsInRange st cellId p
  ∧ st' = if existsb (isPartner p.1) (operator_brackets st cellId) then st
          else store_pair cellId p st.
Proof.
  unfold add_low. case_bool_decide as Hr; [|done].
  by destruct (existsb _ _); intros [= <-].
Qed.

Lemma addNoDuplicateCheck_low_Ok cellId p st st' :
  addNoDuplicateCheck_low cellId p st = Ok st' →
  idsInRange st cellId p ∧ st' = store_pair cellId p st.
Proof.
  unfold addNoDuplicateCheck_low. case_bool_decide as Hr; [|done].
  by intros [= <-].
Qed.

Lemma addNoDuplicateCheckUsingHeap_low_Ok cellId p st st' :
  addNoDuplicateCheckUsingHeap_low cellId p st = Ok st' →
  idsInRange st cellId p
  ∧ st' = let l := heap_store (k st) p (operator_brackets st cellId) in
          set_cell st (write_list (begin_ st cellId) l (similarPairs st))
            (N.to_nat cellId)
            (heap_record (k st) (cellInfo st !!! N.to_nat cellId) l).
Proof.
  unfold addNoDuplicateCheckUsingHeap_low. case_bool_decide as Hr; [|done].
  by intros [= <-].
Qed.

Lemma add_low_ok cellId p st st' :
  wf st → add_low cellId p st = Ok st' →
  inRange st cellId ∧ only_writes_cell cellId st st' ∧ wf st'.
Proof.
  intros Hwf H. apply add_low_Ok in H as ([Hr _] & ->).
  split; [done|]. destruct (existsb _ _).
  - split; [apply only_writes_cell_refl|done].
  - by apply store_pair_ok.
Qed.

Lemma addNoDuplicateCheck_low_ok cellId p st st' :
  wf st → addNoDuplicateCheck_low cellId p st = Ok st' →
  inRange st cellId ∧ only_writes_cell cellId st st' ∧ wf st'.
Proof.
  intros Hwf H. apply addNoDuplicateCheck_low_Ok in H as ([Hr _] & ->).
  split; [done|]. by apply store_pair_ok.
Qed.

Lemma heap_record_usedCount kk ci (l : list (N * Z)) :
  usedCount (heap_record kk ci l) = length l.
Proof.
  unfold heap_record. destruct l as [|root l']; [done|].
  by destruct (_ =? kk).
Qed.

Lemma heap_record_index kk ci (l : list (N * Z)) :
  0 < kk → lowestSimilarityIndex ci < kk →
  lowestSimilarityIndex (heap_record kk ci l) < kk.
Proof.
  intros Hk Hi. unfold heap_record. destruct l as [|root l']; [done|].
  by destruct (_ =? kk).
Qed.

Lemma heap_low_own_list cellId p st st' :
  wf st → addNoDuplicateCheckUsingHeap_low cellId p st = Ok st' →
  operator_brackets st' cellId
  = heap_store (k st) p (operator_brackets st cellId).
Proof.
  intros Hwf H.
  apply addNoDuplicateCheckUsingHeap_low_Ok in H as ([Hr _] & ->).
  cbv zeta.
  assert (Hc : N.to_nat cellId < length (cellInfo st)).
  { destruct Hwf as (_ & -> & _). exact Hr. }
  rewrite set_cell_own by done. rewrite heap_record_usedCount.
  apply write_list_own.
  destruct Hwf as (_ & _ & -> & _). unfold begin_, inRange in *. nia.
Qed.

Lemma heap_low_own_record cellId p st st' :
  wf st → addNoDuplicateCheckUsingHeap_low cellId p st = Ok st' →
  cellInfo st' !!! N.to_nat cellId
  = heap_record (k st) (cellInfo st !!! N.to_nat cellId)
      (heap_store (k st) p (operator_brackets st cellId)).
Proof.
  intros Hwf H.
  apply addNoDuplicateCheckUsingHeap_low_Ok in H as ([Hr _] & ->).
  cbv zeta. unfold set_cell. simpl.
  apply list_lookup_total_insert_eq.
  destruct Hwf as (_ & -> & _). exact Hr.
Qed.

Lemma addNoDuplicateCheckUsingHeap_low_ok cellId p st st' :
  wf st → addNoDuplicateCheckUsingHeap_low cellId p st = Ok st' →
  inRange st cellId ∧ only_writes_cell cellId st st' ∧ wf st'.
Proof.
  intros Hwf H. pose proof (heap_low_own_record _ _ _ _ Hwf H) as Hrec.
  apply addNoDuplicateCheckUsingHeap_low_Ok in H as ([Hr _] & ->).
  cbv zeta in *.
  destruct (wf_record st cellId Hwf Hr) as [Hu Hi].
  pose proof (operator_brackets_length st cellId Hwf Hr) as Hlen.
  destruct (heap_store_length (k st) p (operator_brackets st cellId))
    as [_ Hl]; [unfold size_ in Hlen; lia|].
  split; [done|].
  match goal with |- only_writes_cell _ _ ?s ∧ _ =>
    assert (Hw : only_writes_cell cellId st s)
      by (by apply set_cell_write_list_writes) end.
  split; [done|]. eapply only_writes_cell_wf; [done|exact Hw| |].
  - by rewrite Hrec, heap_record_usedCount.
  - rewrite Hrec. apply heap_record_index; [apply Hwf|done].
Qed.


(** A low-level insertion whose two cell ids are in range returns. *)
Lemma low_level_total cellId p st :
  idsInRange st cellId p →
  (∃ st', add_low cellId p st = Ok st')
  ∧ (∃ st', addNoDuplicateCheck_low cellId p st = Ok st')
  ∧ (∃ st', addNoDuplicateCheckUsingHeap_low cellId p st = Ok st').
Proof.
  intros Hr.
  unfold add_low, addNoDuplicateCheck_low, addNoDuplicateCheckUsingHeap_low.
  rewrite !bool_decide_eq_true_2 by done.
  destruct (existsb _ _); repeat split; eauto.
Qed.

(** ** Invariants along insertions *)



Lemma stored_step (P : N * Z → Prop) cellId st st' :
  wf st → only_writes_cell cellId st st' →
  stored P st → Forall P (operator_brackets st' cellId) → stored P st'.
Proof.
  intros Hwf Hw Hall Hown cellId' Hr.
  destruct (decide (cellId' = cellId)) as [->|Hne]; [done|].
  destruct (only_writes_cell_other _ _ _ _ Hwf Hw Hne) as [-> _].
  apply Hall. by apply (only_writes_cell_inRange _ _ _ _ Hw).
Qed.


Lemma store_pair_stored (P : N * Z → Prop) cellId p st :
  wf st → inRange st cellId → P p →
  stored P st → stored P (store_pair cellId p st).
Proof.
  intros Hwf Hr Hp Hall.
  destruct (store_pair_ok cellId p st Hwf Hr) as [Hw _].
  apply (stored_step P cellId st); [done|done|done|].
  specialize (Hall cellId Hr).
  destruct (store_pair_own_list st cellId p Hwf Hr)
    as [(_ & -> & _)|[(_ & _ & -> & _)|(_ & _ & ->)]].
  - apply Forall_app. split; [done|by constructor].
  - by apply Forall_insert.
  - done.
Qed.

(** The three low-level insertions at once: what each of them keeps. *)
Lemma low_level_keeps (P : N * Z → Prop) cellId p st st' :
  wf st → P p → stored P st →
  (add_low cellId p st = Ok st'
   ∨ addNoDuplicateCheck_low cellId p st = Ok st'
   ∨ addNoDuplicateCheckUsingHeap_low cellId p st = Ok st') →
  idsInRange st cellId p ∧ only_writes_cell cellId st st' ∧ wf st'
  ∧ stored P st'.
Proof.
  intros Hwf Hp Hst [H|[H|H]].
  - destruct (add_low_ok _ _ _ _ Hwf H) as (Hr & Hw & Hwf').
    apply add_low_Ok in H as (Hids & ->).
    refine (conj Hids (conj Hw (conj Hwf' _))).
    destruct (existsb _ _); [done|]. by apply store_pair_stored.
  - destruct (addNoDuplicateCheck_low_ok _ _ _ _ Hwf H) as (Hr & Hw & Hwf').
    apply addNoDuplicateCheck_low_Ok in H as (Hids & ->).
    refine (conj Hids (conj Hw (conj Hwf' _))).
    by apply store_pair_stored.
  - destruct (addNoDuplicateCheckUsingHeap_low_ok _ _ _ _ Hwf H)
      as (Hr & Hw & Hwf').
    assert (Hids : idsInRange st cellId p)
      by (by apply addNoDuplicateCheckUsingHeap_low_Ok in H as (? & _)).
    refine (conj Hids (conj Hw (conj Hwf' _))).
    apply (stored_step P cellId st st'); [done|done|done|].
    rewrite (heap_low_own_list _ _ _ _ Hwf H).
    apply heap_store_Forall; [done|]. by apply Hst.
Qed.




Lemma bind_Ok {A B} (r : Result A) (f : A → Result B) b :
  r ≫= f = Ok b → ∃ a, r = Ok a ∧ f a = Ok b.
Proof. destruct r as [a|e]; [by exists a|done]. Qed.

(** One insertion of a sequence keeps the layout, the capacity and the
    cell set, and stores only pairs of its own similarity. *)
Lemma insert_keeps (P : N * Z → Prop) i st st' :
  wf st → (∀ partner, P (partner, similarityOf i)) → stored P st →
  insert i st = Ok st' →
  wf st' ∧ stored P st' ∧ k st' = k st ∧ cellSet st' = cellSet st
  ∧ Forall (inRange st) (cellIds i).
Proof.
  intros Hwf Hp Hst H.
  destruct i as [c0 c1 s|c0 c1 s|c0 c1 s|c0 c1 s|c0 c1 s|c0 c1 s|c0 c1 s];
    cbn [insert add addNoDuplicateCheck addNoDuplicateCheckUsingHeap
         addUnsymmetric addUnsymmetricNoDuplicateCheck
         addUnsymmetricNoDuplicateCheckUsingHeap addUnsymmetricNoCheck
         cellIds similarityOf] in *.
  1-3: apply bind_Ok in H as (st1 & H1 & H2);
    destruct (low_level_keeps P c0 (c1, s) st st1)
      as ([Hr0 Hr1] & Hw1 & Hwf1 & Hst1); [done|done|done|tauto|];
    destruct (low_level_keeps P c1 (c0, s) st1 st')
      as (_ & Hw2 & Hwf2 & Hst2); [done|done|done|tauto|];
    split; [done|]; split; [done|]; split; [|split];
      [by rewrite (only_writes_cell_k _ _ _ Hw2), (only_writes_cell_k _ _ _ Hw1)
      |destruct Hw1 as (_ & _ & E1 & _), Hw2 as (_ & _ & E2 & _); congruence
      |by repeat constructor].
  all: destruct (low_level_keeps P c0 (c1, s) st st')
      as ([Hr0 Hr1] & Hw1 & Hwf1 & Hst1); [done|done|done|tauto|];
    split; [done|]; split; [done|]; split; [|split];
      [by rewrite (only_writes_cell_k _ _ _ Hw1)
      |by destruct Hw1 as (_ & _ & E1 & _)
      |by repeat constructor].
Qed.




(** ** Creation, and whole sequences of insertions *)

Lemma create_record n c :
  replicate n (mkCellInfo 0 0 0%Z) !!! c = mkCellInfo 0 0 0%Z.
Proof.
  rewrite list_lookup_total_alt.
  destruct (replicate n (mkCellInfo 0 0 0%Z) !! c) as [ci|] eqn:E; [|done].
  by apply lookup_replicate in E as [-> _].
Qed.

Lemma create_ok kk gs cs st :
  create kk gs cs = Ok st →
  wf st ∧ k st = kk ∧ cellSet st = cs ∧ geneSet st = gs
  ∧ (∀ cellId, operator_brackets st cellId = [] ∧ size_ st cellId = 0)
  ∧ all_lowest_ok st.
Proof.
  unfold create. case_bool_decide as Hk; [done|]. intros [= <-].
  split; [|split; [done|split; [done|split; [done|split]]]].
  - unfold wf, k. simpl. rewrite !length_replicate.
    repeat split; [lia..|]. apply Forall_replicate. simpl. lia.
  - intros cellId. unfold operator_brackets, size_. simpl.
    by rewrite create_record.
  - intros cellId _. unfold lowest_ok, k. simpl. rewrite create_record.
    simpl. intros Habs. congruence.
Qed.


Lemma create_total kk gs cs : kk ≠ 0 → ∃ st, create kk gs cs = Ok st.
Proof.
  intros Hk. unfold create. rewrite bool_decide_eq_false_2 by done. eauto.
Qed.

Lemma insertAll_keeps (P : N * Z → Prop) ops : ∀ st st',
  wf st → Forall (λ i, ∀ partner, P (partner, similarityOf i)) ops →
  stored P st → insertAll ops st = Ok st' →
  wf st' ∧ stored P st' ∧ k st' = k st ∧ cellSet st' = cellSet st.
Proof.
  induction ops as [|i ops IH]; intros st st' Hwf HP Hst H; cbn [insertAll] in H.
  - by injection H as <-.
  - apply bind_Ok in H as (st1 & H1 & H2).
    apply Forall_cons in HP as [HPi HP].
    destruct (insert_keeps P i st st1 Hwf HPi Hst H1) as (Hwf1 & Hst1 & Hk1 & Hcs1 & _).
    destruct (IH st1 st' Hwf1 HP Hst1 H2) as (Hwf' & Hst' & Hk' & Hcs').
    split; [done|split; [done|split; congruence]].
Qed.

Lemma insertAll_wf ops st st' :
  wf st → insertAll ops st = Ok st' →
  wf st' ∧ k st' = k st ∧ cellSet st' = cellSet st.
Proof.
  intros Hwf H.
  destruct (insertAll_keeps (λ _, True) ops st st') as (H1 & _ & H2 & H3);
    try done.
  - by apply Forall_forall.
  - intros cellId _. by apply Forall_forall.
Qed.





Lemma store_pair_cellSet cellId p st :
  cellSet (store_pair cellId p st) = cellSet st.
Proof. unfold store_pair. cbv zeta. by repeat case_match. Qed.

Lemma low_level_cellSet cellId p st st' :
  add_low cellId p st = Ok st'
  ∨ addNoDuplicateCheck_low cellId p st = Ok st'
  ∨ addNoDuplicateCheckUsingHeap_low cellId p st = Ok st' →
  cellSet st' = cellSet st.
Proof.
  intros [H|[H|H]].
  - apply add_low_Ok in H as (_ & ->).
    destruct (existsb _ _); [done|apply store_pair_cellSet].
  - apply addNoDuplicateCheck_low_Ok in H as (_ & ->).
    apply store_pair_cellSet.
  - by apply addNoDuplicateCheckUsingHeap_low_Ok in H as (_ & ->).
Qed.

(** An insertion given two cell ids in range returns. *)
Lemma insert_returns i st :
  Forall (inRange st) (cellIds i) → ∃ st', insert i st = Ok st'.
Proof.
  intros Hids.
  assert (Hsnd : ∀ c0 c1 s st1, inRange st c0 → inRange st c1 →
            cellSet st1 = cellSet st → idsInRange st1 c1 (c0, s)).
  { intros c0 c1 s st1 H0 H1 Hcs. unfold idsInRange, inRange in *.
    simpl. by rewrite Hcs. }
  destruct i as [c0 c1 s|c0 c1 s|c0 c1 s|c0 c1 s|c0 c1 s|c0 c1 s|c0 c1 s];
    cbn [cellIds] in Hids;
    unfold insert, add, addNoDuplicateCheck, addNoDuplicateCheckUsingHeap,
      addUnsymmetric, addUnsymmetricNoDuplicateCheck,
      addUnsymmetricNoDuplicateCheckUsingHeap, addUnsymmetricNoCheck;
    apply Forall_cons in Hids as [H0 Hids];
    apply Forall_cons in Hids as [H1 _];
    destruct (low_level_total c0 (c1, s) st (conj H0 H1))
      as ([s1 E1] & [s2 E2] & [s3 E3]); eauto.
  - rewrite E1. simpl. apply low_level_total, Hsnd; [done|done|].
    apply (low_level_cellSet c0 (c1, s)). tauto.
  - rewrite E2. simpl. apply low_level_total, Hsnd; [done|done|].
    apply (low_level_cellSet c0 (c1, s)). tauto.
  - rewrite E3. simpl. apply low_level_total, Hsnd; [done|done|].
    apply (low_level_cellSet c0 (c1, s)). tauto.
Qed.

(** A sequence of insertions between cells in range runs to its end. *)
Lemma insertAll_total ops : ∀ st,
  wf st → Forall (λ i, Forall (inRange st) (cellIds i)) ops →
  ∃ st', insertAll ops st = Ok st'.
Proof.
  induction ops as [|i ops IH]; intros st Hwf Hown; cbn [insertAll]; [eauto|].
  apply Forall_cons in Hown as [Hi Hown].
  destruct (insert_returns i st Hi) as [st1 H1]. rewrite H1. simpl.
  destruct (insert_keeps (λ _, True) i st st1) as (Hwf1 & _ & _ & Hcs & _);
    try done.
  { intros cellId _. by apply Forall_forall. }
  apply IH; [done|]. unfold inRange in *. by rewrite Hcs.
Qed.

(** ** The bounded top-k invariant *)




Lemma getLocalCellId_roundtrip_witness :
  cellSet_ok (cellSet example_store)
  ∧ getGlobalCellId example_store (getLocalCellId example_store 5) = Ok 5%N
  ∧ getLocalCellId example_store 4 = invalidCellId.
Proof.
  assert (H : cellSet_ok (cellSet example_store)).
  { split; repeat constructor. }
  destruct (getLocalCellId_roundtrip example_store H) as [Hin Hout].
  split; [done|]. split.
  - apply Hin. by apply (list_elem_of_lookup_2 _ 1).
  - apply Hout. intros Habs. simpl in Habs.
    repeat (apply elem_of_cons in Habs as [Habs|Habs]; [discriminate|]).
    by apply elem_of_nil in Habs.
Defined.

(** ** Unsymmetric insertion writes to one cell only *)

Lemma reachable_wf st : reachable st → wf st.
Proof.
  intros (kk & gs & cs & ops & st0 & Hc & Hrun).
  destruct (create_ok _ _ _ _ Hc) as (Hwf0 & _).
  by destruct (insertAll_wf _ _ _ Hwf0 Hrun).
Qed.


Lemma example_store_reachable : reachable example_store.
Proof. by exists 2, [], example_cellSet, example_insertions, example_empty. Qed.


(** ** exists *)

Lemma exists_iff st cellId0 cellId1 :
  exists_ st cellId0 cellId1 = true
  ↔ cellId1 ∈ (operator_brackets st cellId0).*1.
Proof.
  unfold exists_. rewrite existsb_exists, list_elem_of_fmap. split.
  - intros (q & Hin & Hq). exists q. unfold isPartner in Hq.
    apply N.eqb_eq in Hq. split; [done|]. by apply list_elem_of_In.
  - intros (q & Hq & Hin). exists q. split; [by apply list_elem_of_In|].
    unfold isPartner. by apply N.eqb_eq.
Qed.

(** C4.  [exists(cellId0, cellId1)] is true exactly when [cellId1] is the
    partner of one of the pairs currently in the list of [cellId0]; it is
    not symmetric (on the example store cell 0 lists cell 2 but cell 2 does
    not list cell 0); and after an [addUnsymmetric] that admits the pair
    (the list was not full, or the similarity beats the lowest one stored)
    the partner is reported. *)
Theorem exists_exact :
  (∀ st cellId0 cellId1,
     exists_ st cellId0 cellId1 = true
     ↔ cellId1 ∈ (operator_brackets st cellId0).*1)
  ∧ (exists_ example_store 0 2 = true ∧ exists_ example_store 2 0 = false)
  ∧ (∀ st st' cellId0 cellId1 similarity,
       reachable st →
       addUnsymmetric cellId0 cellId1 similarity st = Ok st' →
       size_ st cellId0 < k st
       ∨ (lowestSimilarity (cellInfo st !!! N.to_nat cellId0) < similarity)%Z →
       exists_ st' cellId0 cellId1 = true).
Proof.
  split; [apply exists_iff|]. split; [by vm_compute|].
  intros st st' cellId0 cellId1 similarity Hreach Hstep Hadmit.
  pose proof (reachable_wf st Hreach) as Hwf.
  apply add_low_Ok in Hstep as ([Hr _] & ->). simpl.
  destruct (existsb _ _) eqn:Hdup; [done|].
  apply exists_iff.
  destruct (wf_record st cellId0 Hwf Hr) as [Hu Hi].
  pose proof (operator_brackets_length st cellId0 Hwf Hr) as Hlen.
  destruct (store_pair_own_list st cellId0 (cellId1, similarity) Hwf Hr)
    as [(_ & -> & _)|[(Hfull & _ & -> & _)|(Hfull & Hlow & _)]].
  - rewrite fmap_app. apply elem_of_app. right. simpl. by apply list_elem_of_singleton.
  - apply list_elem_of_fmap. exists (cellId1, similarity). split; [done|].
    apply list_elem_of_insert. unfold size_ in Hlen. lia.
  - unfold size_ in Hadmit. simpl in Hlow. lia.
Qed.

Lemma exists_exact_witness :
  reachable example_store
  ∧ addUnsymmetric 2 0 90 example_store
    = Ok (store_pair 2 (0%N, 90%Z) example_store)
  ∧ (lowestSimilarity (cellInfo example_store !!! N.to_nat 2) < 90)%Z
  ∧ exists_ (store_pair 2 (0%N, 90%Z) example_store) 2 0 = true.
Proof.
  assert (H1 : addUnsymmetric 2 0 90 example_store
               = Ok (store_pair 2 (0%N, 90%Z) example_store)) by reflexivity.
  assert (H2 : (lowestSimilarity (cellInfo example_store !!! N.to_nat 2) < 90)%Z)
    by (by vm_compute).
  destruct exists_exact as (_ & _ & Hadmit).
  split; [apply example_store_reachable|]. split; [done|]. split; [done|].
  exact (Hadmit example_store _ 2%N 0%N 90%Z example_store_reachable H1
           (or_intror H2)).
Defined.

(** ** sort and the candidate strategies *)

Global Instance bySimilarityGreater_total : Total bySimilarityGreater.
Proof. intros p q. unfold bySimilarityGreater. lia. Qed.

Global Instance bySimilarityGreater_trans : Transitive bySimilarityGreater.
Proof. intros p q r. unfold bySimilarityGreater. lia. Qed.







Lemma cellIds_insertion kind cellId0 cellId1 similarity :
  cellIds (insertion kind cellId0 cellId1 similarity) = [cellId0; cellId1].
Proof. by destruct kind. Qed.



(** A strategy on at least two cells, with a positive capacity and
    candidates between cells of the cell set, returns a store. *)
Lemma findSimilarPairs_total {D} (leD : D → D → bool)
    (narrow : D → CellSimilarity) kk gs cs similarityThreshold candidates :
  kk ≠ 0 → 2 ≤ length cs →
  Forall (λ c, N.to_nat (candidateCellId0 c) < length cs
               ∧ N.to_nat (candidateCellId1 c) < length cs) candidates →
  ∃ st, findSimilarPairs leD narrow kk gs cs similarityThreshold candidates
        = Ok st.
Proof.
  intros Hk Hcs Hown. unfold findSimilarPairs.
  rewrite bool_decide_eq_false_2 by lia.
  destruct (create_total kk gs cs Hk) as [st0 H0]. rewrite H0. simpl.
  destruct (create_ok _ _ _ _ H0) as (Hwf0 & _ & Hcs0 & _).
  destruct (insertAll_total
              (narrowed narrow <$> emitted leD similarityThreshold candidates)
              st0 Hwf0) as [st1 H1].
  { apply Forall_fmap, Forall_forall. intros c Hc. unfold emitted in Hc.
    apply list_elem_of_filter in Hc as [_ Hc]. rewrite Forall_forall in Hown.
    destruct (Hown c Hc) as [Hc0 Hc1]. simpl. unfold narrowed.
    rewrite cellIds_insertion. unfold inRange. rewrite Hcs0.
    by repeat constructor. }
  rewrite H1. simpl. eauto.
Qed.

(** ** Cell ids out of range *)



Lemma getGlobalCellId_inRange st localCellId :
  inRange st localCellId →
  ∃ g, getGlobalCellId st localCellId = Ok g
       ∧ cellSet st !! N.to_nat localCellId = Some g.
Proof.
  intros Hr. unfold getGlobalCellId. rewrite bool_decide_eq_true_2 by done.
  destruct (lookup_lt_is_Some_2 _ _ Hr) as [g Hg]. rewrite Hg. eauto.
Qed.




(** ** Named SimilarPairs objects *)

(** C8.  Removing (or querying) a name under which no SimilarPairs object
    exists fails with [NotFound], which is not one of the
    precondition-violation errors (creation under an existing name fails
    with one of those); removing a name that exists succeeds, takes exactly
    that object away and leaves the others, so a second removal of the same
    name is a [NotFound] again; and removing an object just created gives
    back the artifacts there were before. *)
Theorem removeSimilarPairs_not_found (m : gmap string SimilarPairs) name :
  (m !! name = None →
     removeSimilarPairs name m = Fail (NotFound name)
     ∧ getSimilarPairs name m = Fail (NotFound name))
  ∧ ¬ isPreconditionViolation (NotFound name)
  ∧ (∀ e, (removeSimilarPairs name m = Fail e ∨ getSimilarPairs name m = Fail e) →
       e = NotFound name ∧ m !! name = None)
  ∧ (∀ st, m !! name = Some st →
       getSimilarPairs name m = Ok st
       ∧ (∀ kk gs cs, ∃ e, createSimilarPairs name kk gs cs m = Fail e
                           ∧ isPreconditionViolation e)
       ∧ ∃ m', removeSimilarPairs name m = Ok m'
               ∧ m' !! name = None
               ∧ (∀ other, other ≠ name → m' !! other = m !! other)
               ∧ removeSimilarPairs name m' = Fail (NotFound name))
  ∧ (∀ kk gs cs m', createSimilarPairs name kk gs cs m = Ok m' →
       removeSimilarPairs name m' = Ok m).
Proof.
  unfold removeSimilarPairs, getSimilarPairs, createSimilarPairs.
  split; [by intros ->|]. split; [by intros []|]. split; [|split].
  - intros e. destruct (m !! name); intros [H|H]; try done;
      by injection H as <-.
  - intros st ->. split; [done|]. split; [by eexists|].
    exists (delete name m).
    rewrite lookup_delete_eq. repeat split; try done.
    intros other Hne. by apply lookup_delete_ne.
  - intros kk gs cs m'. destruct (m !! name) eqn:Hm; [done|].
    intros (st & _ & [= <-])%bind_Ok.
    rewrite lookup_insert_eq. f_equal. rewrite delete_insert_eq.
    by apply delete_id.
Qed.

(** ** The constructor of the cluster graph: vertices *)

Lemma cells_of_cluster_snoc seen cv c :
  cells_of_cluster (seen ++ [cv]) c
  = cells_of_cluster seen c
    ++ (if decide (CellSimilarityGraphVertex.clusterId cv = c)
        then [CellSimilarityGraphVertex.cellId cv] else []).
Proof.
  unfold cells_of_cluster. rewrite filter_app, fmap_app. f_equal.
  rewrite filter_cons, filter_nil. by destruct (decide _).
Qed.

Lemma cells_of_cluster_fresh seen c :
  (∀ cv, cv ∈ seen → CellSimilarityGraphVertex.clusterId cv ≠ c) →
  cells_of_cluster seen c = [].
Proof.
  intros H. unfold cells_of_cluster.
  destruct (filter _ seen) as [|cv l] eqn:E; [done|].
  assert (Hin : cv ∈ filter
            (λ cv, CellSimilarityGraphVertex.clusterId cv = c) seen)
    by (rewrite E; by left).
  apply list_elem_of_filter in Hin as [Hc Hin]. by destruct (H cv Hin).
Qed.

Lemma clusters_inv_empty : clusters_inv [] (∅, []).
Proof.
  repeat split; simpl.
  - by rewrite lookup_empty.
  - done.
  - done.
  - done.
  - intros cv Hcv. by apply elem_of_nil in Hcv.
Qed.

Lemma clusters_inv_range seen state c v :
  clusters_inv seen state → state.1 !! c = Some v → v < length state.2.
Proof.
  intros (H1 & _) Hc. apply H1 in Hc. apply lookup_lt_Some in Hc.
  by rewrite length_fmap in Hc.
Qed.

Lemma addCell_inv seen state cVertex :
  clusters_inv seen state →
  ∃ state', addCell state cVertex = Ok state'
            ∧ clusters_inv (seen ++ [cVertex]) state'.
Proof.
  destruct state as [vm vs]. intros (H1 & H3 & H4). simpl in *.
  unfold addCell. simpl.
  set (cid := CellSimilarityGraphVertex.clusterId cVertex).
  set (cell := CellSimilarityGraphVertex.cellId cVertex).
  destruct (vm !! cid) as [v|] eqn:Hcid.
  - (* the cluster has a vertex *)
    pose proof Hcid as Hv. apply H1 in Hv.
    rewrite list_lookup_fmap in Hv.
    destruct (vs !! v) as [vertex|] eqn:Hvertex; [|done].
    simpl in Hv. injection Hv as Hv. rewrite bool_decide_eq_true_2 by done.
    eexists. split; [reflexivity|]. split; [|split]; simpl.
    + intros c v'. rewrite list_fmap_insert. simpl.
      rewrite list_insert_id by (by rewrite list_lookup_fmap, Hvertex).
      apply H1.
    + intros v' vertex' H.
      destruct (decide (v' = v)) as [->|Hne].
      * rewrite list_lookup_insert_eq in H by (by eapply lookup_lt_Some).
        injection H as <-. simpl. rewrite cells_of_cluster_snoc.
        fold cid. rewrite decide_True by done.
        destruct (H3 v vertex Hvertex) as [-> Hin]. rewrite Hv. split; [done|].
        rewrite fmap_app. apply elem_of_app. left. by rewrite <- Hv.
      * rewrite list_lookup_insert_ne in H by done.
        rewrite cells_of_cluster_snoc. fold cid.
        destruct (H3 v' vertex' H) as [Hcells Hin].
        rewrite decide_False, app_nil_r.
        { split; [done|]. rewrite fmap_app. apply elem_of_app. by left. }
        intros Heq. apply Hne.
        assert (Hv0 : vm !! cid = Some v').
        { apply H1. by rewrite list_lookup_fmap, H, Heq. }
        congruence.
    + intros cv [Hcv|Hcv%list_elem_of_singleton]%elem_of_app.
      * by apply H4.
      * subst cv. fold cid. by rewrite Hcid.
  - (* a new vertex for the cluster *)
    eexists. split; [reflexivity|].
    assert (Hfresh : ∀ v, (ClusterGraphVertex.clusterId <$> vs) !! v ≠ Some cid).
    { intros v Hv. apply H1 in Hv. congruence. }
    split; [|split]; simpl.
    + intros c v. rewrite fmap_app. simpl. split.
      * intros Hc. destruct (decide (c = cid)) as [->|Hne].
        -- rewrite lookup_insert_eq in Hc. injection Hc as <-.
           rewrite lookup_app_r by (by rewrite length_fmap).
           by rewrite length_fmap, Nat.sub_diag.
        -- rewrite lookup_insert_ne in Hc by done. apply H1 in Hc.
           by apply lookup_app_l_Some.
      * intros Hv. apply lookup_app_Some in Hv as [Hv|[Hlen Hv]].
        -- assert (c ≠ cid) by (intros ->; by apply (Hfresh v)).
           rewrite lookup_insert_ne by done. by apply H1.
        -- rewrite length_fmap in Hlen, Hv.
           destruct (v - length vs) as [|n] eqn:Hn; [|done].
           injection Hv as <-. rewrite lookup_insert_eq. f_equal. lia.
    + intros v vertex H. rewrite fmap_app, cells_of_cluster_snoc. fold cid.
      apply lookup_app_Some in H as [Hv|[Hlen Hv]].
      * destruct (H3 v vertex Hv) as [Hcells Hin].
        rewrite decide_False, app_nil_r.
        { split; [done|]. apply elem_of_app. by left. }
        intros Heq. apply (Hfresh v). by rewrite list_lookup_fmap, Hv, Heq.
      * destruct (v - length vs) as [|n] eqn:Hn; [|done].
        injection Hv as <-. simpl. rewrite decide_True by done. split.
        -- rewrite cells_of_cluster_fresh; [done|].
           intros cv Hcv Heq. destruct (H4 cv Hcv) as [v' Hv']. congruence.
        -- apply elem_of_app. right. by apply list_elem_of_singleton.
    + intros cv [Hcv|Hcv%list_elem_of_singleton]%elem_of_app.
      * destruct (decide (CellSimilarityGraphVertex.clusterId cv = cid)) as [->|Hne].
        -- by rewrite lookup_insert_eq.
        -- rewrite lookup_insert_ne by done. by apply H4.
      * subst cv. fold cid. by rewrite lookup_insert_eq.
Qed.

Lemma addCells_inv cVertices : ∀ seen state,
  clusters_inv seen state →
  ∃ state', addCells cVertices state = Ok state'
            ∧ clusters_inv (seen ++ cVertices) state'.
Proof.
  induction cVertices as [|cv rest IH]; intros seen state Hinv; cbn [addCells].
  - exists state. by rewrite app_nil_r.
  - destruct (addCell_inv seen state cv Hinv) as (state1 & -> & Hinv1).
    simpl. destruct (IH _ _ Hinv1) as (state' & Hrun & Hinv').
    exists state'. split; [done|]. by rewrite <- app_assoc in Hinv'.
Qed.

(** ** The constructor of the cluster graph: edges *)

Lemma add_edge_inv undirected n v0 v1 es :
  edges_inv undirected n es → v0 ≠ v1 → v0 < n → v1 < n →
  edges_inv undirected n (add_edge undirected v0 v1 es).
Proof.
  intros (Hloop & Hnd & Hrev) Hne H0 H1. unfold add_edge, has_edge.
  destruct (bool_decide ((v0, v1) ∈ es)) eqn:Hfwd; simpl; [done|].
  apply bool_decide_eq_false in Hfwd.
  destruct (undirected && bool_decide ((v1, v0) ∈ es)) eqn:Hbwd; [done|].
  split; [|split].
  - intros e [He|He%list_elem_of_singleton]%elem_of_app; [by apply Hloop|].
    by subst e.
  - apply NoDup_app. split; [done|]. split; [|apply NoDup_singleton].
    intros e He He'%list_elem_of_singleton. by subst e.
  - intros -> a b. simpl in Hbwd. apply bool_decide_eq_false in Hbwd.
    intros [Hab|Hab%list_elem_of_singleton]%elem_of_app
           [Hba|Hba%list_elem_of_singleton]%elem_of_app.
    + by apply (Hrev eq_refl a b).
    + injection Hba as -> ->. done.
    + injection Hab as -> ->. done.
    + injection Hab as -> ->. injection Hba as -> _. done.
Qed.

Lemma addClusterEdges_inv undirected g seen state ces : ∀ es,
  clusters_inv seen state → cellVertices g ⊆ seen →
  Forall (λ e, e.1 < length (cellVertices g) ∧ e.2 < length (cellVertices g)) ces →
  edges_inv undirected (length state.2) es →
  ∃ es', addClusterEdges undirected g state.1 ces es = Ok es'
         ∧ edges_inv undirected (length state.2) es'.
Proof.
  intros es Hinv Hseen Hces. revert es.
  induction Hces as [|ce ces [Hce0 Hce1] _ IH]; intros es Hes;
    cbn [addClusterEdges]; [by exists es|].
  unfold addClusterEdge.
  destruct (lookup_lt_is_Some_2 _ _ Hce0) as [cVertex0 E0].
  destruct (lookup_lt_is_Some_2 _ _ Hce1) as [cVertex1 E1].
  rewrite E0, E1.
  destruct Hinv as (H1 & H3 & H4).
  destruct (H4 cVertex0) as [v0 Ev0];
    [apply Hseen; by eapply list_elem_of_lookup_2|].
  destruct (H4 cVertex1) as [v1 Ev1];
    [apply Hseen; by eapply list_elem_of_lookup_2|].
  rewrite Ev0, Ev1. case_bool_decide as Hne; simpl; [|by apply IH].
  apply IH. apply add_edge_inv; [done|done| |].
  - by eapply (clusters_inv_range seen state), Ev0.
  - by eapply (clusters_inv_range seen state), Ev1.
Qed.

Lemma NoDup_fmap_inj {A B} (f : A → B) (l : list A) x y :
  NoDup (f <$> l) → x ∈ l → y ∈ l → f x = f y → x = y.
Proof.
  intros Hnd [i Hi]%list_elem_of_lookup [j Hj]%list_elem_of_lookup Hf.
  assert (i = j) as ->; [|congruence].
  eapply NoDup_lookup; [exact Hnd| |].
  - by rewrite list_lookup_fmap, Hi.
  - by rewrite list_lookup_fmap, Hj, Hf.
Qed.

(** C10.  For a cell similarity graph whose edges join vertices of the
    graph, the constructor returns a cluster graph (no assertion fails)
    with exactly one vertex per cluster id that occurs among the input
    vertices; the cells of a vertex are the cells of the input vertices of
    its cluster, in input order, so every input cell is in the vertex of its
    cluster and, cell ids being distinct, in no other; no edge is a
    self-loop, every edge joins two vertices of the result, and no edge is
    there twice (for an undirected graph, in neither direction). *)
Theorem ClusterGraph_ctor_spec undirected g :
  graph_ok g →
  ∃ cg, ClusterGraph_ctor undirected g = Ok cg
    ∧ NoDup (ClusterGraphVertex.clusterId <$> vertices cg)
    ∧ (∀ c, c ∈ ClusterGraphVertex.clusterId <$> vertices cg
            ↔ c ∈ CellSimilarityGraphVertex.clusterId <$> cellVertices g)
    ∧ (∀ vertex, vertex ∈ vertices cg →
         ClusterGraphVertex.cells vertex
         = cells_of_cluster (cellVertices g)
             (ClusterGraphVertex.clusterId vertex))
    ∧ (∀ cv, cv ∈ cellVertices g →
         ∃ vertex, vertex ∈ vertices cg
           ∧ ClusterGraphVertex.clusterId vertex
             = CellSimilarityGraphVertex.clusterId cv
           ∧ CellSimilarityGraphVertex.cellId cv
             ∈ ClusterGraphVertex.cells vertex)
    ∧ (NoDup (CellSimilarityGraphVertex.cellId <$> cellVertices g) →
       ∀ cv vertex, cv ∈ cellVertices g → vertex ∈ vertices cg →
         CellSimilarityGraphVertex.cellId cv ∈ ClusterGraphVertex.cells vertex →
         ClusterGraphVertex.clusterId vertex
         = CellSimilarityGraphVertex.clusterId cv)
    ∧ (∀ e, e ∈ edges cg →
         e.1 ≠ e.2 ∧ e.1 < length (vertices cg) ∧ e.2 < length (vertices cg))
    ∧ NoDup (edges cg)
    ∧ (undirected = true → ∀ v0 v1, (v0, v1) ∈ edges cg → (v1, v0) ∉ edges cg).
Proof.
  intros Hg. unfold ClusterGraph_ctor.
  destruct (addCells_inv (cellVertices g) [] (∅, []) clusters_inv_empty)
    as (state & -> & Hinv).
  simpl in Hinv. simpl.
  destruct (addClusterEdges_inv undirected g (cellVertices g) state
              (cellEdges g) []) as (es & -> & Hloop & Hnd & Hrev);
    [done|done|done| |].
  { split; [|split; [constructor|]].
    - intros e He. by apply elem_of_nil in He.
    - intros _ v0 v1 He. by apply elem_of_nil in He. }
  simpl. eexists. split; [reflexivity|]. simpl.
  destruct Hinv as (H1 & H3 & H4).
  assert (Hcells : ∀ vertex, vertex ∈ state.2 →
            ClusterGraphVertex.cells vertex
            = cells_of_cluster (cellVertices g)
                (ClusterGraphVertex.clusterId vertex)).
  { intros vertex [v Hv]%list_elem_of_lookup. by apply (H3 v). }
  split; [|split; [|split; [done|split; [|split]]]].
  - apply NoDup_alt. intros i j c Hi Hj.
    apply H1 in Hi, Hj. congruence.
  - intros c. split.
    + intros (vertex & -> & [v Hv]%list_elem_of_lookup)%list_elem_of_fmap.
      by apply (H3 v).
    + intros (cv & -> & Hcv)%list_elem_of_fmap.
      destruct (H4 cv Hcv) as [v Hv]. apply H1 in Hv.
      by eapply list_elem_of_lookup_2.
  - intros cv Hcv. destruct (H4 cv Hcv) as [v Hv]. apply H1 in Hv.
    rewrite list_lookup_fmap in Hv.
    destruct (state.2 !! v) as [vertex|] eqn:Hvertex; [|done].
    injection Hv as Hv. exists vertex.
    split; [by eapply list_elem_of_lookup_2|]. split; [done|].
    destruct (H3 v vertex Hvertex) as [-> _]. unfold cells_of_cluster.
    apply list_elem_of_fmap. exists cv. split; [done|].
    by apply list_elem_of_filter.
  - intros Hdistinct cv vertex Hcv Hvertex Hin.
    rewrite (Hcells vertex Hvertex) in Hin. unfold cells_of_cluster in Hin.
    apply list_elem_of_fmap in Hin as (cv' & Heq & Hcv').
    apply list_elem_of_filter in Hcv' as [Hcluster Hcv'].
    by rewrite (NoDup_fmap_inj _ _ cv cv' Hdistinct Hcv Hcv' Heq).
  - done.
Qed.

Lemma ClusterGraph_ctor_spec_witness :
  graph_ok example_graph
  ∧ ClusterGraph_ctor true example_graph = Ok example_clusterGraph
  ∧ NoDup (ClusterGraphVertex.clusterId <$> vertices example_clusterGraph)
  ∧ NoDup (edges example_clusterGraph).
Proof.
  assert (H : graph_ok example_graph).
  { unfold graph_ok. simpl. repeat constructor. }
  assert (E : ClusterGraph_ctor true example_graph = Ok example_clusterGraph)
    by reflexivity.
  split; [done|]. split; [done|].
  destruct (ClusterGraph_ctor_spec true example_graph H)
    as (cg & Hcg & Hv & _ & _ & _ & _ & _ & He & _).
  rewrite E in Hcg. injection Hcg as <-. done.
Defined.

(* ===================================================================== *)
(** * Further properties of the accessors of SimilarPairs.hpp *)
(* ===================================================================== *)

(** The binary search stays inside the vector, sorted or not. *)
Lemma lower_bound_loop_le (v : list N) val fuel : ∀ first len,
  first ≤ lower_bound_loop fuel v first len val ≤ first + len.
Proof.
  induction fuel as [|fuel IH]; intros first len; cbn [lower_bound_loop];
    [lia|].
  destruct (Nat.eqb_spec len 0) as [->|Hne]; [lia|].
  assert (Hhalf : len / 2 < len) by (apply Nat.div_lt; lia).
  destruct (v !! (first + len / 2)) as [x|]; [|lia].
  destruct (x <? val)%N.
  - specialize (IH (first + len / 2 + 1) (len - len / 2 - 1)). lia.
  - specialize (IH first (len / 2)). lia.
Qed.

Lemma lower_bound_le (v : list N) val : lower_bound v val ≤ length v.
Proof.
  unfold lower_bound.
  pose proof (lower_bound_loop_le v val (length v) 0 (length v)). lia.
Qed.

(** The local id of a member of a sorted cell set is its position. *)
Lemma getLocalCellId_member st i g :
  cellSet_ok (cellSet st) → cellSet st !! i = Some g →
  getLocalCellId st g = N.of_nat i.
Proof.
  intros [Hs Hr] Hi. unfold getLocalCellId.
  rewrite (lower_bound_member _ i g Hs Hi).
  rewrite bool_decide_eq_false_2 by (apply lookup_lt_Some in Hi; lia).
  rewrite Hi. rewrite bool_decide_eq_false_2 by (intros ?; congruence).
  unfold CellId_of_size. apply N.mod_small.
  pose proof (Sorted_lt_index_le _ _ _ Hs Hi).
  rewrite Forall_forall in Hr.
  assert (g < CellId_modulus)%N by (apply Hr; by eapply list_elem_of_lookup_2).
  lia.
Qed.

(** Whatever the cell set, a result other than the sentinel was read off
    an element equal to the global id. *)
Lemma getLocalCellId_found st g :
  getLocalCellId st g = invalidCellId
  ∨ (cellSet st !! lower_bound (cellSet st) g = Some g
     ∧ getLocalCellId st g = CellId_of_size (lower_bound (cellSet st) g)).
Proof.
  unfold getLocalCellId. case_bool_decide; [by left|].
  destruct (cellSet st !! lower_bound (cellSet st) g) as [x|] eqn:Hx;
    [|by left].
  case_bool_decide as Hne; [by left|]. right.
  assert (x = g) as -> by (destruct (decide (x = g)); [done|contradiction]).
  done.
Qed.

(** X1.  The round trip in the other direction: on a sorted,
    duplicate-free cell set of 32-bit ids, every local id below
    [cellSet.size()] has a global id, and [getLocalCellId] maps that global
    id back to the same local id. *)
Theorem getGlobalCellId_roundtrip st localCellId :
  cellSet_ok (cellSet st) → inRange st localCellId →
  ∃ g, getGlobalCellId st localCellId = Ok g
       ∧ getLocalCellId st g = localCellId.
Proof.
  intros Hok Hr.
  destruct (getGlobalCellId_inRange st localCellId Hr) as (g & Hg & Hat).
  exists g. split; [done|].
  rewrite (getLocalCellId_member st _ g Hok Hat). apply N2Nat.id.
Qed.

Lemma getGlobalCellId_roundtrip_witness :
  cellSet_ok (cellSet example_store) ∧ inRange example_store 2
  ∧ ∃ g, getGlobalCellId example_store 2 = Ok g
         ∧ getLocalCellId example_store g = 2%N.
Proof.
  assert (H : cellSet_ok (cellSet example_store)) by (split; repeat constructor).
  assert (Hr : inRange example_store 2) by (unfold inRange; simpl; lia).
  split; [done|]. split; [done|].
  exact (getGlobalCellId_roundtrip example_store 2%N H Hr).
Defined.

(** X2.  [getLocalCellId] never names a wrong cell, whether or not the
    cell set is sorted: if the vector has at most 2^32 entries, a result
    other than [invalidCellId] is a position of the vector, and the entry
    at that position is the global id that was asked for. *)
Theorem getLocalCellId_sound st g :
  (N.of_nat (length (cellSet st)) ≤ CellId_modulus)%N →
  getLocalCellId st g ≠ invalidCellId →
  cellSet st !! N.to_nat (getLocalCellId st g) = Some g.
Proof.
  intros Hlen Hvalid.
  destruct (getLocalCellId_found st g) as [Hinv|[Hat ->]]; [done|].
  pose proof (lookup_lt_Some _ _ _ Hat) as Hlt.
  unfold CellId_of_size. rewrite N.mod_small by lia. by rewrite Nat2N.id.
Qed.

Lemma getLocalCellId_sound_witness :
  (N.of_nat (length [9; 3; 5]%N) ≤ CellId_modulus)%N
  ∧ getLocalCellId (mkSimilarPairs [] [] (mkInfo 1 3) [] [9; 3; 5]%N) 5
    ≠ invalidCellId
  ∧ [9; 3; 5]%N !! N.to_nat
      (getLocalCellId (mkSimilarPairs [] [] (mkInfo 1 3) [] [9; 3; 5]%N) 5)
    = Some 5%N.
Proof.
  assert (H1 : (N.of_nat (length [9; 3; 5]%N) ≤ CellId_modulus)%N)
    by (by vm_compute).
  assert (H2 : getLocalCellId (mkSimilarPairs [] [] (mkInfo 1 3) [] [9; 3; 5]%N) 5
               ≠ invalidCellId) by (by vm_compute).
  split; [done|]. split; [done|].
  exact (getLocalCellId_sound
           (mkSimilarPairs [] [] (mkInfo 1 3) [] [9; 3; 5]%N) 5%N H1 H2).
Defined.

(** X3.  When the sentinel is not itself one of the cell ids of a sorted
    cell set, [getLocalCellId] returns [invalidCellId] for the global ids
    that are not in the cell set and for no others: the result tells
    members from non-members. *)
Theorem getLocalCellId_invalid_iff st g :
  cellSet_ok (cellSet st) → invalidCellId ∉ cellSet st →
  (getLocalCellId st g = invalidCellId ↔ g ∉ cellSet st).
Proof.
  intros Hok Hsent. split.
  - intros Hinv [i Hi]%list_elem_of_lookup.
    rewrite (getLocalCellId_member st i g Hok Hi) in Hinv.
    destruct Hok as [Hs Hr].
    pose proof (Sorted_lt_index_le _ _ _ Hs Hi) as Hle.
    rewrite Forall_forall in Hr.
    assert (g < CellId_modulus)%N by (apply Hr; by eapply list_elem_of_lookup_2).
    assert (g = invalidCellId)
      by (unfold invalidCellId, CellId_modulus in *; lia).
    subst g. apply Hsent. by eapply list_elem_of_lookup_2.
  - intros Hnin. destruct (getLocalCellId_found st g) as [Hinv|[Hat _]];
      [done|]. exfalso. apply Hnin. by eapply list_elem_of_lookup_2.
Qed.

Lemma getLocalCellId_invalid_iff_witness :
  cellSet_ok (cellSet example_store)
  ∧ (invalidCellId ∉ cellSet example_store)
  ∧ (getLocalCellId example_store 9 = invalidCellId
     ↔ 9%N ∉ cellSet example_store).
Proof.
  assert (H : cellSet_ok (cellSet example_store)) by (split; repeat constructor).
  assert (Hs : invalidCellId ∉ cellSet example_store).
  { intros Habs. simpl in Habs.
    repeat (apply elem_of_cons in Habs as [Habs|Habs]; [discriminate|]).
    by apply elem_of_nil in Habs. }
  split; [done|]. split; [done|].
  exact (getLocalCellId_invalid_iff example_store 9%N H Hs).
Defined.

(** X4.  Local ids follow the order of global ids: for two members of a
    sorted cell set, the local id of one is below the local id of the other
    exactly when its global id is. *)
Theorem getLocalCellId_monotone st g1 g2 :
  cellSet_ok (cellSet st) → g1 ∈ cellSet st → g2 ∈ cellSet st →
  ((getLocalCellId st g1 < getLocalCellId st g2)%N ↔ (g1 < g2)%N).
Proof.
  intros Hok [i1 H1]%list_elem_of_lookup [i2 H2]%list_elem_of_lookup.
  rewrite (getLocalCellId_member st i1 g1 Hok H1).
  rewrite (getLocalCellId_member st i2 g2 Hok H2).
  destruct Hok as [Hs _].
  destruct (lt_eq_lt_dec i1 i2) as [[Hlt|Heq]|Hgt].
  - pose proof (Sorted_lt_lookup _ _ _ _ _ Hs H1 H2 Hlt). lia.
  - subst i2. rewrite H1 in H2. injection H2 as ->. lia.
  - pose proof (Sorted_lt_lookup _ _ _ _ _ Hs H2 H1 Hgt). lia.
Qed.

Lemma getLocalCellId_monotone_witness :
  cellSet_ok (cellSet example_store)
  ∧ 3%N ∈ cellSet example_store ∧ 9%N ∈ cellSet example_store
  ∧ ((getLocalCellId example_store 3 < getLocalCellId example_store 9)%N
     ↔ (3 < 9)%N).
Proof.
  assert (H : cellSet_ok (cellSet example_store)) by (split; repeat constructor).
  assert (H3 : 3%N ∈ cellSet example_store)
    by (by apply (list_elem_of_lookup_2 _ 0)).
  assert (H9 : 9%N ∈ cellSet example_store)
    by (by apply (list_elem_of_lookup_2 _ 2)).
  split; [done|]. split; [done|]. split; [done|].
  exact (getLocalCellId_monotone example_store 3%N 9%N H H3 H9).
Defined.

(** X5.  In a store laid out as the header describes, the range
    [begin(c), end(c)) that [operator[]], [begin] and [end] give for a cell
    lies inside [similarPairs], [operator[]] returns exactly the slots of
    that range ([size(c)] of them), and the ranges of two different cells
    do not overlap: the range of the lower cell ends before the range of
    the higher one begins. *)
Theorem accessor_ranges st cellId cellId' :
  layout_ok st →
  N.to_nat cellId < length (cellInfo st) →
  N.to_nat cellId' < length (cellInfo st) →
  end_ st cellId ≤ length (similarPairs st)
  ∧ length (operator_brackets st cellId) = size_ st cellId
  ∧ size_ st cellId = end_ st cellId - begin_ st cellId
  ∧ (∀ i p, operator_brackets st cellId !! i = Some p ↔
       begin_ st cellId + i < end_ st cellId
       ∧ similarPairs st !! (begin_ st cellId + i) = Some p)
  ∧ ((cellId < cellId')%N → end_ st cellId ≤ begin_ st cellId').
Proof.
  intros [Hlen Hall] Hc Hc'.
  assert (Hused : size_ st cellId ≤ k st).
  { unfold size_. destruct (lookup_lt_is_Some_2 _ _ Hc) as [ci Hci].
    rewrite (list_lookup_total_correct _ _ _ Hci).
    rewrite Forall_forall in Hall. apply Hall. by eapply list_elem_of_lookup_2. }
  assert (Hend : end_ st cellId ≤ length (similarPairs st)).
  { rewrite Hlen. unfold end_, begin_. nia. }
  split; [done|]. split; [|split; [|split]].
  - unfold operator_brackets. fold (size_ st cellId).
    rewrite length_take, length_drop. unfold end_, begin_ in Hend. lia.
  - unfold end_. lia.
  - intros i p. rewrite operator_brackets_lookup. unfold end_.
    case_bool_decide; split.
    + intros H'. split; [lia|done].
    + by intros [_ H'].
    + done.
    + intros [H' _]. lia.
  - intros Hlt. unfold end_, begin_. nia.
Qed.

Lemma accessor_ranges_witness :
  layout_ok example_store
  ∧ N.to_nat 0 < length (cellInfo example_store)
  ∧ N.to_nat 2 < length (cellInfo example_store)
  ∧ end_ example_store 0 ≤ begin_ example_store 2.
Proof.
  assert (H : layout_ok example_store).
  { split; [reflexivity|]. simpl. repeat constructor. }
  assert (H0 : N.to_nat 0 < length (cellInfo example_store)) by (simpl; lia).
  assert (H2 : N.to_nat 2 < length (cellInfo example_store)) by (simpl; lia).
  split; [done|]. split; [done|]. split; [done|].
  destruct (accessor_ranges example_store 0%N 2%N H H0 H2)
    as (_ & _ & _ & _ & Hdisj).
  apply Hdisj. lia.
Defined.

(* ===================================================================== *)
(** * Further properties of the constructor of the cluster graph *)
(* ===================================================================== *)

(** One step of the first loop adds the cell to the cells of some vertex
    and moves no other cell. *)
Lemma addCell_cells state cVertex state' :
  addCell state cVertex = Ok state' →
  concat (ClusterGraphVertex.cells <$> state'.2)
  ≡ₚ concat (ClusterGraphVertex.cells <$> state.2)
     ++ [CellSimilarityGraphVertex.cellId cVertex].
Proof.
  destruct state as [vm vs]. unfold addCell. simpl.
  destruct (vm !! _) as [v|].
  - destruct (vs !! v) as [vertex|] eqn:Hv; [|done].
    case_bool_decide; [|done]. intros [= <-]. simpl.
    rewrite insert_take_drop by (by eapply lookup_lt_Some).
    rewrite <- (take_drop_middle vs v vertex Hv) at 3.
    rewrite !fmap_app, !fmap_cons, !concat_app, !concat_cons. simpl.
    rewrite <- !app_assoc. apply Permutation_app_head.
    apply Permutation_app_head. apply Permutation_app_comm.
  - intros [= <-]. simpl. rewrite fmap_app, concat_app. simpl.
    by rewrite ?app_nil_r.
Qed.

Lemma addCells_cells cVertices : ∀ state state',
  addCells cVertices state = Ok state' →
  concat (ClusterGraphVertex.cells <$> state'.2)
  ≡ₚ concat (ClusterGraphVertex.cells <$> state.2)
     ++ (CellSimilarityGraphVertex.cellId <$> cVertices).
Proof.
  induction cVertices as [|cv rest IH]; intros state state' H;
    cbn [addCells] in H.
  - injection H as <-. by rewrite app_nil_r.
  - apply bind_Ok in H as (state1 & H1 & H2).
    rewrite (IH _ _ H2), (addCell_cells _ _ _ H1), fmap_cons.
    by rewrite <- app_assoc.
Qed.

Lemma length_concat_nonempty {A} (ls : list (list A)) :
  Forall (λ l, l ≠ []) ls → length ls ≤ length (concat ls).
Proof.
  induction 1 as [|l ls Hl _ IH]; simpl; [done|].
  rewrite length_app. destruct l; [done|]. simpl. lia.
Qed.

(** The two loops of a constructor call that returned. *)
Lemma ClusterGraph_ctor_Ok undirected g cg :
  ClusterGraph_ctor undirected g = Ok cg →
  ∃ state,
    addCells (cellVertices g) (∅, []) = Ok state
    ∧ clusters_inv (cellVertices g) state
    ∧ vertices cg = state.2
    ∧ addClusterEdges undirected g state.1 (cellEdges g) [] = Ok (edges cg).
Proof.
  unfold ClusterGraph_ctor. intros H.
  apply bind_Ok in H as (state & Hstate & H).
  apply bind_Ok in H as (es & Hes & [= <-]).
  exists state. split; [done|]. split; [|done].
  destruct (addCells_inv (cellVertices g) [] (∅, []) clusters_inv_empty)
    as (state' & Hstate' & Hinv).
  rewrite Hstate in Hstate'. by injection Hstate' as <-.
Qed.

(** X6.  The constructor partitions the cells: the cell lists of the
    vertices of the result, put end to end, are a rearrangement of the cell
    ids of the input vertices (no cell is lost, none is added or repeated);
    no vertex is left without cells, so there are at most as many vertices
    as input vertices; and an input without vertices gives a graph with
    neither vertices nor edges. *)
Theorem ClusterGraph_ctor_partition undirected g cg :
  ClusterGraph_ctor undirected g = Ok cg →
  concat (ClusterGraphVertex.cells <$> vertices cg)
  ≡ₚ CellSimilarityGraphVertex.cellId <$> cellVertices g
  ∧ Forall (λ vertex, ClusterGraphVertex.cells vertex ≠ []) (vertices cg)
  ∧ length (vertices cg) ≤ length (cellVertices g)
  ∧ (cellVertices g = [] → vertices cg = [] ∧ edges cg = []).
Proof.
  intros H.
  destruct (ClusterGraph_ctor_Ok _ _ _ H) as (state & Hstate & Hinv & Hvs & Hes).
  assert (Hperm : concat (ClusterGraphVertex.cells <$> vertices cg)
                  ≡ₚ CellSimilarityGraphVertex.cellId <$> cellVertices g).
  { rewrite Hvs. by rewrite (addCells_cells _ _ _ Hstate). }
  assert (Hne : Forall (λ vertex, ClusterGraphVertex.cells vertex ≠ [])
                  (vertices cg)).
  { rewrite Hvs. apply Forall_lookup. intros v vertex Hv.
    destruct Hinv as (_ & H3 & _).
    destruct (H3 v vertex Hv) as [-> Hin].
    apply list_elem_of_fmap in Hin as (cv & Hc & Hcv).
    intros Hnil. unfold cells_of_cluster in Hnil.
    apply fmap_nil_inv in Hnil.
    assert (Hcv' : cv ∈ filter
              (λ cv, CellSimilarityGraphVertex.clusterId cv
                     = ClusterGraphVertex.clusterId vertex) (cellVertices g))
      by (by apply list_elem_of_filter).
    rewrite Hnil in Hcv'. by apply elem_of_nil in Hcv'. }
  assert (Hlen : length (vertices cg) ≤ length (cellVertices g)).
  { rewrite <- (length_fmap CellSimilarityGraphVertex.cellId (cellVertices g)).
    rewrite <- (Permutation_length Hperm).
    rewrite <- (length_fmap ClusterGraphVertex.cells (vertices cg)).
    apply length_concat_nonempty. by apply Forall_fmap. }
  split; [done|]. split; [done|]. split; [done|].
  intros Hempty. rewrite Hempty in Hlen. simpl in Hlen.
  split; [by apply nil_length_inv; lia|].
  destruct (cellEdges g) as [|ce ces]; cbn [addClusterEdges] in Hes.
  - by injection Hes as <-.
  - unfold addClusterEdge in Hes. rewrite Hempty in Hes. simpl in Hes.
    done.
Qed.

Lemma ClusterGraph_ctor_partition_witness :
  ClusterGraph_ctor true example_graph = Ok example_clusterGraph
  ∧ concat (ClusterGraphVertex.cells <$> vertices example_clusterGraph)
    ≡ₚ CellSimilarityGraphVertex.cellId <$> cellVertices example_graph.
Proof.
  assert (E : ClusterGraph_ctor true example_graph = Ok example_clusterGraph)
    by reflexivity.
  split; [done|].
  by destruct (ClusterGraph_ctor_partition true example_graph
                 example_clusterGraph E) as (Hperm & _).
Defined.

Lemma has_edge_true undirected es v0 v1 :
  has_edge undirected es v0 v1 = true
  ↔ (v0, v1) ∈ es ∨ (undirected = true ∧ (v1, v0) ∈ es).
Proof.
  unfold has_edge. rewrite orb_true_iff, andb_true_iff.
  rewrite !bool_decide_eq_true. done.
Qed.

Lemma add_edge_subseteq undirected v0 v1 es e :
  e ∈ es → e ∈ add_edge undirected v0 v1 es.
Proof.
  intros He. unfold add_edge. destruct (has_edge _ _ _ _); [done|].
  apply elem_of_app. by left.
Qed.

Lemma add_edge_has_edge undirected v0 v1 es :
  has_edge undirected (add_edge undirected v0 v1 es) v0 v1 = true.
Proof.
  unfold add_edge. destruct (has_edge undirected es v0 v1) eqn:H; [done|].
  apply has_edge_true. left. apply elem_of_app. right.
  by apply list_elem_of_singleton.
Qed.

Lemma add_edge_elem_of undirected v0 v1 es e :
  e ∈ add_edge undirected v0 v1 es → e ∈ es ∨ e = (v0, v1).
Proof.
  unfold add_edge. destruct (has_edge _ _ _ _); [by left|].
  intros [He|He%list_elem_of_singleton]%elem_of_app; [by left|by right].
Qed.

Lemma add_edge_length undirected v0 v1 es :
  length (add_edge undirected v0 v1 es) ≤ S (length es).
Proof.
  unfold add_edge. destruct (has_edge _ _ _ _); [lia|].
  rewrite length_app. simpl. lia.
Qed.

(** What the second loop adds: only edges between the vertices of the
    clusters of some cell edge it visited, and one for every such cell edge
    whose clusters differ. *)
Lemma addClusterEdges_edges undirected g vertexMap ces : ∀ es es',
  addClusterEdges undirected g vertexMap ces es = Ok es' →
  (∀ e, e ∈ es → e ∈ es')
  ∧ (∀ e, e ∈ es' →
       e ∈ es
       ∨ ∃ ce, ce ∈ ces ∧ cluster_endpoints g vertexMap ce e.1 e.2 ∧ e.1 ≠ e.2)
  ∧ (∀ ce v0 v1, ce ∈ ces → cluster_endpoints g vertexMap ce v0 v1 →
       v0 ≠ v1 → has_edge undirected es' v0 v1 = true)
  ∧ length es' ≤ length es + length ces.
Proof.
  induction ces as [|ce ces IH]; intros es es' H; cbn [addClusterEdges] in H.
  - injection H as <-. split; [done|]. split; [by left|].
    split; [|simpl; lia]. intros ce v0 v1 Hce. by apply elem_of_nil in Hce.
  - apply bind_Ok in H as (es1 & H1 & H2).
    destruct (IH _ _ H2) as (Hkeep & Hsound & Hcomplete & Hlen).
    unfold addClusterEdge in H1.
    destruct (cellVertices g !! ce.1) as [cVertex0|] eqn:E0; [|done].
    destruct (cellVertices g !! ce.2) as [cVertex1|] eqn:E1; [|done].
    destruct (vertexMap !! _) as [w0|] eqn:Ew0; [|done].
    destruct (vertexMap !! CellSimilarityGraphVertex.clusterId cVertex1)
      as [w1|] eqn:Ew1; [|done].
    assert (Hhere : cluster_endpoints g vertexMap ce w0 w1)
      by (by exists cVertex0, cVertex1).
    assert (Hstep : (∀ e, e ∈ es → e ∈ es1)
                    ∧ (∀ e, e ∈ es1 → e ∈ es ∨ (e = (w0, w1) ∧ w0 ≠ w1))
                    ∧ (w0 ≠ w1 → has_edge undirected es1 w0 w1 = true)
                    ∧ length es1 ≤ S (length es)).
    { revert H1. case_bool_decide as Hne; intros [= <-].
      - split; [intros e; apply add_edge_subseteq|].
        split; [|split; [intros _; apply add_edge_has_edge
                        |apply add_edge_length]].
        intros e [He| ->]%add_edge_elem_of; [by left|by right].
      - split; [done|]. split; [by left|]. split; [|lia].
        intros Hne'. by destruct Hne'. }
    destruct Hstep as (Hkeep1 & Hsound1 & Hcomplete1 & Hlen1).
    split; [intros e He; by apply Hkeep, Hkeep1|]. split; [|split].
    + intros e [He1|(ce' & Hce' & Hend)]%Hsound.
      * destruct (Hsound1 e He1) as [He|[-> Hne]]; [by left|].
        right. exists ce. split; [by left|]. done.
      * right. exists ce'. split; [by right|done].
    + intros ce' v0 v1 [->|Hce']%elem_of_cons Hend Hne.
      * destruct Hend as (c0 & c1 & F0 & F1 & Fw0 & Fw1).
        rewrite E0 in F0. injection F0 as <-.
        rewrite E1 in F1. injection F1 as <-.
        rewrite Ew0 in Fw0. injection Fw0 as <-.
        rewrite Ew1 in Fw1. injection Fw1 as <-.
        specialize (Hcomplete1 Hne). apply has_edge_true in Hcomplete1.
        apply has_edge_true.
        destruct Hcomplete1 as [He|[Hu He]]; [left|right; split; [done|]];
          by apply Hkeep.
      * by apply (Hcomplete ce').
    + simpl. lia.
Qed.

(** X7.  The edges of the result are the cell edges seen between
    clusters.  Every edge joins the vertices of two different clusters that
    some cell edge connects; and for every cell edge whose two cells lie in
    different clusters there is an edge between the vertices of those
    clusters (in the direction of the cell edge, or, in an undirected
    graph, possibly in the other); there are no more edges than cell
    edges. *)
Theorem ClusterGraph_ctor_edges undirected g cg :
  ClusterGraph_ctor undirected g = Ok cg →
  let cellClusters := CellSimilarityGraphVertex.clusterId <$> cellVertices g in
  let clusters := ClusterGraphVertex.clusterId <$> vertices cg in
  (∀ v0 v1, (v0, v1) ∈ edges cg →
     ∃ a b c0 c1,
       (a, b) ∈ cellEdges g
       ∧ cellClusters !! a = Some c0 ∧ cellClusters !! b = Some c1
       ∧ clusters !! v0 = Some c0 ∧ clusters !! v1 = Some c1
       ∧ c0 ≠ c1)
  ∧ (∀ a b c0 c1,
       (a, b) ∈ cellEdges g →
       cellClusters !! a = Some c0 → cellClusters !! b = Some c1 → c0 ≠ c1 →
       ∃ v0 v1,
         clusters !! v0 = Some c0 ∧ clusters !! v1 = Some c1
         ∧ ((v0, v1) ∈ edges cg ∨ (undirected = true ∧ (v1, v0) ∈ edges cg)))
  ∧ length (edges cg) ≤ length (cellEdges g).
Proof.
  intros H. cbv zeta.
  destruct (ClusterGraph_ctor_Ok _ _ _ H) as (state & _ & Hinv & Hvs & Hes).
  destruct (addClusterEdges_edges _ _ _ _ _ _ Hes)
    as (_ & Hsound & Hcomplete & Hlen).
  destruct Hinv as (H1 & _ & H4).
  rewrite Hvs. split; [|split; [|simpl in Hlen; lia]].
  - intros v0 v1 [Hnil|(ce & Hce & Hend & Hne)]%Hsound;
      [by apply elem_of_nil in Hnil|].
    destruct Hend as (cv0 & cv1 & F0 & F1 & Fw0 & Fw1). simpl in *.
    exists ce.1, ce.2, (CellSimilarityGraphVertex.clusterId cv0),
      (CellSimilarityGraphVertex.clusterId cv1).
    split; [by destruct ce|].
    split; [by rewrite list_lookup_fmap, F0|].
    split; [by rewrite list_lookup_fmap, F1|].
    split; [by apply H1|]. split; [by apply H1|].
    intros Heq. rewrite Heq in Fw0. congruence.
  - intros a b c0 c1 Hab Ha Hb Hne.
    rewrite list_lookup_fmap in Ha, Hb.
    destruct (cellVertices g !! a) as [cva|] eqn:Ea; [|done].
    destruct (cellVertices g !! b) as [cvb|] eqn:Eb; [|done].
    injection Ha as <-. injection Hb as <-.
    destruct (H4 cva) as [v0 Hv0]; [by eapply list_elem_of_lookup_2|].
    destruct (H4 cvb) as [v1 Hv1]; [by eapply list_elem_of_lookup_2|].
    exists v0, v1. split; [by apply H1|]. split; [by apply H1|].
    apply has_edge_true. apply (Hcomplete (a, b)); [done| |].
    + by exists cva, cvb.
    + intros ->. apply H1 in Hv0, Hv1. congruence.
Qed.

Lemma ClusterGraph_ctor_edges_witness :
  ClusterGraph_ctor true example_graph = Ok example_clusterGraph
  ∧ length (edges example_clusterGraph) ≤ length (cellEdges example_graph).
Proof.
  assert (E : ClusterGraph_ctor true example_graph = Ok example_clusterGraph)
    by reflexivity.
  split; [done|].
  by destruct (ClusterGraph_ctor_edges true example_graph
                 example_clusterGraph E) as (_ & _ & Hlen).
Defined.

(* ===================================================================== *)
(** * The similarities of the edges of the cluster graph *)
(* ===================================================================== *)

Lemma filter_ext_elem_of {A} (P Q : A → Prop) `{!∀ x, Decision (P x)}
    `{!∀ x, Decision (Q x)} (l : list A) :
  (∀ x, x ∈ l → P x ↔ Q x) → filter P l = filter Q l.
Proof.
  induction l as [|x l IH]; intros Hext; [done|].
  rewrite !filter_cons.
  assert (Hx : P x ↔ Q x) by (apply Hext; by left).
  rewrite IH by (intros y Hy; apply Hext; by right).
  destruct (decide (P x)), (decide (Q x)); tauto.
Qed.

Lemma filter_all {A} (P : A → Prop) `{!∀ x, Decision (P x)} (l : list A) :
  Forall P l → filter P l = l.
Proof.
  induction 1 as [|x l Hx _ IH]; [done|].
  by rewrite filter_cons_True, IH.
Qed.

Lemma filter_none {A} (P : A → Prop) `{!∀ x, Decision (P x)} (l : list A) :
  Forall (λ x, ¬ P x) l → filter P l = [].
Proof.
  induction 1 as [|x l Hx _ IH]; [done|].
  by rewrite filter_cons_False, IH.
Qed.

(** Removing the edges of a list of descriptors, one after the other,
    leaves the edges named by none of them. *)
Lemma remove_edges_filter {S} (ds : list (nat * nat)) :
  ∀ es : list (ClusterGraphEdge S),
    foldl (λ es' e, remove_edge e es') es ds
    = filter (λ e, edge_descriptor e ∉ ds) es.
Proof.
  induction ds as [|d ds IH]; intros es; simpl.
  - symmetry. apply filter_all. apply Forall_forall. intros e _.
    apply not_elem_of_nil.
  - rewrite IH. unfold remove_edge. rewrite list_filter_filter.
    apply list_filter_iff. intros e. rewrite not_elem_of_cons. tauto.
Qed.

Lemma weak_edge_removed {S} (less : S → S → bool) t
    (es : list (ClusterGraphEdge S)) e :
  e ∈ es → edge_descriptor e ∉ edgesToBeRemoved less t es →
  less (similarity e) t = false.
Proof.
  intros He Hnot. destruct (less (similarity e) t) eqn:Hless; [|done].
  exfalso. apply Hnot. unfold edgesToBeRemoved.
  apply list_elem_of_fmap. exists e. split; [done|].
  by apply list_elem_of_filter.
Qed.

Lemma removeWeakEdges_filter {S} (less : S → S → bool) t
    (es : list (ClusterGraphEdge S)) :
  NoDup (edge_descriptor <$> es) →
  removeWeakEdges less t es = filter (λ e, less (similarity e) t = false) es.
Proof.
  intros Hnd. unfold removeWeakEdges. rewrite remove_edges_filter.
  apply filter_ext_elem_of. intros e He. split.
  - by apply weak_edge_removed.
  - intros Hless Hin. unfold edgesToBeRemoved in Hin.
    apply list_elem_of_fmap in Hin as (e' & Heq & He').
    apply list_elem_of_filter in He' as [Hweak He'].
    assert (e = e') by (by eapply (NoDup_fmap_inj edge_descriptor es)).
    subst e'. congruence.
Qed.

(** X8.  [removeWeakEdges] leaves no edge whose similarity is below the
    threshold, keeps the remaining edges in their order and with their
    similarities, and removes nothing from a graph without weak edges (so a
    second call changes nothing).  In a graph without parallel edges it
    removes nothing else: the edges left are exactly those whose similarity
    is not below the threshold.  Nothing is assumed of the comparison: an
    edge whose similarity compares as not below the threshold (as a NaN
    does) stays. *)
Theorem removeWeakEdges_spec {S} (less : S → S → bool) similarityThreshold
    (es : list (ClusterGraphEdge S)) :
  Forall (λ e, less (similarity e) similarityThreshold = false)
    (removeWeakEdges less similarityThreshold es)
  ∧ removeWeakEdges less similarityThreshold es `sublist_of` es
  ∧ (Forall (λ e, less (similarity e) similarityThreshold = false) es →
     removeWeakEdges less similarityThreshold es = es)
  ∧ removeWeakEdges less similarityThreshold
      (removeWeakEdges less similarityThreshold es)
    = removeWeakEdges less similarityThreshold es
  ∧ (NoDup (edge_descriptor <$> es) →
     removeWeakEdges less similarityThreshold es
     = filter (λ e, less (similarity e) similarityThreshold = false) es).
Proof.
  assert (Hsurvivors : ∀ es' : list (ClusterGraphEdge S),
            Forall (λ e, less (similarity e) similarityThreshold = false)
              (removeWeakEdges less similarityThreshold es')).
  { intros es'. unfold removeWeakEdges. rewrite remove_edges_filter.
    apply Forall_forall. intros e [Hnot He]%list_elem_of_filter.
    by eapply weak_edge_removed. }
  assert (Hnone : ∀ es' : list (ClusterGraphEdge S),
            Forall (λ e, less (similarity e) similarityThreshold = false) es' →
            removeWeakEdges less similarityThreshold es' = es').
  { intros es' Hall. unfold removeWeakEdges, edgesToBeRemoved.
    rewrite filter_none; [done|].
    eapply Forall_impl; [exact Hall|]. intros e He Hless. simpl in *.
    congruence. }
  split; [apply Hsurvivors|]. split.
  { unfold removeWeakEdges. rewrite remove_edges_filter. apply sublist_filter. }
  split; [apply Hnone|]. split; [apply Hnone, Hsurvivors|].
  apply removeWeakEdges_filter.
Qed.

Lemma removeWeakEdges_spec_witness :
  NoDup (edge_descriptor <$> example_edges)
  ∧ removeWeakEdges Z.ltb 20%Z example_edges
    = filter (λ e, (similarity e <? 20)%Z = false) example_edges.
Proof.
  assert (H : NoDup (edge_descriptor <$> example_edges)).
  { apply (bool_decide_unpack _). by vm_compute. }
  split; [done|].
  destruct (removeWeakEdges_spec Z.ltb 20%Z example_edges)
    as (_ & _ & _ & _ & Heq).
  by apply Heq.
Defined.

(** X9.  [computeSimilarities] changes no edge but in its similarity: the
    edges, their vertices and their order stay, whatever similarities were
    stored before.  Followed by [removeWeakEdges] on a graph without
    parallel edges, it leaves exactly the edges between two clusters whose
    coefficient is not below the threshold. *)
Theorem computeSimilarities_then_removeWeakEdges {S E} `{Inhabited E}
    (regressionCoefficient : E → E → S) (less : S → S → bool)
    (averageGeneExpression : list E) similarityThreshold
    (es : list (ClusterGraphEdge S)) :
  let coefficient e :=
    regressionCoefficient (averageGeneExpression !!! source e)
      (averageGeneExpression !!! target e) in
  edge_descriptor
    <$> computeSimilarities regressionCoefficient averageGeneExpression es
  = edge_descriptor <$> es
  ∧ similarity
      <$> computeSimilarities regressionCoefficient averageGeneExpression es
    = coefficient <$> es
  ∧ (NoDup (edge_descriptor <$> es) →
     removeWeakEdges less similarityThreshold
       (computeSimilarities regressionCoefficient averageGeneExpression es)
     = computeSimilarities regressionCoefficient averageGeneExpression
         (filter (λ e, less (coefficient e) similarityThreshold = false) es)).
Proof.
  intros coefficient.
  assert (Hd : edge_descriptor
            <$> computeSimilarities regressionCoefficient
                  averageGeneExpression es
          = edge_descriptor <$> es).
  { unfold computeSimilarities. rewrite <- list_fmap_compose.
    by apply list_fmap_ext. }
  split; [done|]. split.
  { unfold computeSimilarities. rewrite <- list_fmap_compose.
    by apply list_fmap_ext. }
  intros Hnd. rewrite removeWeakEdges_filter by (by rewrite Hd).
  unfold computeSimilarities. clear Hd Hnd.
  induction es as [|e es IH]; [done|].
  rewrite fmap_cons, !filter_cons. simpl. fold (coefficient e).
  rewrite IH. destruct (decide _); [by rewrite fmap_cons|done].
Qed.

Lemma computeSimilarities_then_removeWeakEdges_witness :
  NoDup (edge_descriptor <$> example_edges)
  ∧ removeWeakEdges Z.ltb 5%Z
      (computeSimilarities Z.mul [1; 2; 3; 4]%Z example_edges)
    = computeSimilarities Z.mul [1; 2; 3; 4]%Z
        (filter (λ e, ([1; 2; 3; 4]%Z !!! source e
                       * [1; 2; 3; 4]%Z !!! target e <? 5)%Z = false)
           example_edges).
Proof.
  assert (H : NoDup (edge_descriptor <$> example_edges)).
  { apply (bool_decide_unpack _). by vm_compute. }
  split; [done|].
  destruct (computeSimilarities_then_removeWeakEdges Z.mul Z.ltb
              [1; 2; 3; 4]%Z 5%Z example_edges) as (_ & _ & Heq).
  by apply Heq.
Defined.

(** ** The rows of a vertex label *)

(** On a vector sorted by decreasing expression, stopping at the first
    pair below the minimum loses no pair that is not below it. *)
Lemma labelRows_filter {S} (less : S → S → bool) minimum
    (l : list (N * S)) :
  (∀ a b c, less a b = false → less b c = false → less a c = false) →
  StronglySorted (sortedBefore less) l →
  labelRows less minimum l = filter (λ p, less p.2 minimum = false) l.
Proof.
  intros Htrans Hs. induction Hs as [|p l Hl IH Hall]; [done|].
  cbn [labelRows]. rewrite filter_cons.
  destruct (less p.2 minimum) eqn:Hp.
  - rewrite decide_False by done. symmetry. apply filter_none.
    eapply Forall_impl; [exact Hall|]. intros q Hpq Hq. simpl in *.
    unfold sortedBefore, OrderPairsBySecondGreater in Hpq.
    rewrite (Htrans _ _ _ Hpq Hq) in Hp. discriminate.
  - rewrite decide_True by done. by rewrite IH.
Qed.

Lemma StronglySorted_filter {A} (R : relation A) (P : A → Prop)
    `{!∀ x, Decision (P x)} (l : list A) :
  StronglySorted R l → StronglySorted R (filter P l).
Proof.
  induction 1 as [|x l Hl IH Hall]; [constructor|].
  rewrite filter_cons. destruct (decide (P x)); [|done].
  constructor; [done|]. apply Forall_forall.
  intros y [_ Hy]%list_elem_of_filter. rewrite Forall_forall in Hall.
  by apply Hall.
Qed.

Lemma expressionCounts_loop_S {V} fuel (averageGeneExpression : list V)
    geneId sortedExpressionCounts :
  expressionCounts_loop (Datatypes.S fuel) averageGeneExpression geneId
    sortedExpressionCounts
  = if (geneId <? N.of_nat (length averageGeneExpression))%N then
      match averageGeneExpression !! N.to_nat geneId with
      | Some x =>
          expressionCounts_loop fuel averageGeneExpression
            ((geneId + 1) mod 4294967296)%N
            (sortedExpressionCounts ++ [(geneId, x)])
      | None => None
      end
    else Some sortedExpressionCounts.
Proof. done. Qed.

(** With fewer than 2^32 entries the counter never wraps around: the loop
    is left after one test more than there are entries, with one pair for
    each entry, in order. *)
Lemma expressionCounts_loop_spec {V} (averageGeneExpression : list V) :
  (N.of_nat (length averageGeneExpression) < 4294967296)%N →
  ∀ n g sortedExpressionCounts,
    g + n = length averageGeneExpression →
    expressionCounts_loop (Datatypes.S n) averageGeneExpression (N.of_nat g)
      sortedExpressionCounts
    = Some (sortedExpressionCounts
            ++ imap (λ i x, (N.of_nat (g + i), x))
                 (drop g averageGeneExpression)).
Proof.
  intros Hlen. induction n as [|n IH]; intros g acc Hg;
    rewrite expressionCounts_loop_S.
  - assert (Hge : (N.of_nat g <? N.of_nat (length averageGeneExpression))%N
                  = false) by (apply N.ltb_ge; lia).
    rewrite Hge, drop_ge by lia. by rewrite app_nil_r.
  - assert (Hlt : (N.of_nat g <? N.of_nat (length averageGeneExpression))%N
                  = true) by (apply N.ltb_lt; lia).
    rewrite Hlt, Nat2N.id.
    destruct (lookup_lt_is_Some_2 averageGeneExpression g) as [x Hx]; [lia|].
    rewrite Hx.
    replace ((N.of_nat g + 1) mod 4294967296)%N with (N.of_nat (Datatypes.S g))
      by (rewrite N.mod_small; lia).
    rewrite IH by lia. rewrite (drop_S _ _ _ Hx). cbn [imap].
    rewrite <- app_assoc. simpl. rewrite Nat.add_0_r. do 3 f_equal.
    apply imap_ext. intros i y _. simpl. do 2 f_equal. lia.
Qed.

Lemma expressionCounts_spec {V} (averageGeneExpression : list V) :
  (N.of_nat (length averageGeneExpression) < 4294967296)%N →
  expressionCounts averageGeneExpression
  = Some (imap (λ geneId x, (N.of_nat geneId, x)) averageGeneExpression).
Proof.
  intros Hlen. unfold expressionCounts.
  by rewrite (expressionCounts_loop_spec _ Hlen _ 0 []).
Qed.

(** With 2^32 entries or more the counter wraps around before it reaches
    the size: the loop is never left. *)
Lemma expressionCounts_loop_wraps {V} (averageGeneExpression : list V) :
  (4294967296 ≤ N.of_nat (length averageGeneExpression))%N →
  ∀ fuel geneId sortedExpressionCounts, (geneId < 4294967296)%N →
    expressionCounts_loop fuel averageGeneExpression geneId
      sortedExpressionCounts = None.
Proof.
  intros Hlen. induction fuel as [|fuel IH]; intros g acc Hg; [done|].
  rewrite expressionCounts_loop_S.
  assert (Hlt : (g <? N.of_nat (length averageGeneExpression))%N = true)
    by (apply N.ltb_lt; lia).
  rewrite Hlt.
  destruct (averageGeneExpression !! N.to_nat g); [|done].
  apply IH. by apply N.mod_lt.
Qed.

Lemma imap_geneId_elem_of {V} (averageGeneExpression : list V) geneId x :
  (geneId, x) ∈ imap (λ geneId x, (N.of_nat geneId, x)) averageGeneExpression
  ↔ averageGeneExpression !! N.to_nat geneId = Some x.
Proof.
  rewrite elem_of_lookup_imap. split.
  - intros (i & y & [= -> ->] & Hi). by rewrite Nat2N.id.
  - intros Hi. exists (N.to_nat geneId), x. by rewrite N2Nat.id.
Qed.

(** X10.  For a vector of fewer than 2^32 average expressions, a
    comparison of the values that is a strict weak order (as [<] is on
    numbers other than NaN) and any [std::sort] that returns a sorted
    permutation of its argument: the label of a vertex lists exactly the
    genes whose average expression is not below the minimum (0.2 in the
    source), each once and with that expression, in order of
    non-increasing expression.  With 2^32 entries or more the 32-bit
    counter of the loop that collects the pairs wraps around and the loop
    is never left. *)
Theorem vertexLabelRows_spec {S} (sort : list (N * S) → list (N * S))
    (less : S → S → bool) minimum (averageGeneExpression : list S) :
  (∀ a b, less a b = true → less b a = false) →
  (∀ a b c, less a b = false → less b c = false → less a c = false) →
  (∀ l, sort l ≡ₚ l) →
  (∀ l, Sorted (sortedBefore less) (sort l)) →
  ((N.of_nat (length averageGeneExpression) < 4294967296)%N →
   ∃ rows,
     vertexLabelRows sort less minimum averageGeneExpression = Some rows
     ∧ rows ≡ₚ filter (λ p, less p.2 minimum = false)
                 (imap (λ geneId x, (N.of_nat geneId, x))
                    averageGeneExpression)
     ∧ (∀ geneId x, (geneId, x) ∈ rows
          ↔ averageGeneExpression !! N.to_nat geneId = Some x
            ∧ less x minimum = false)
     ∧ NoDup rows.*1
     ∧ (∀ i j p q, i ≤ j → rows !! i = Some p → rows !! j = Some q →
          less p.2 q.2 = false))
  ∧ ((4294967296 ≤ N.of_nat (length averageGeneExpression))%N →
     ∀ fuel, expressionCounts_loop fuel averageGeneExpression 0 [] = None).
Proof.
  intros Hasym Htrans Hperm Hsort.
  split; [|by intros Hlen fuel; apply expressionCounts_loop_wraps].
  intros Hlen.
  set (counts := imap (λ geneId x, (N.of_nat geneId, x)) averageGeneExpression).
  assert (Htransitive : Transitive (sortedBefore less)).
  { intros p q r. unfold sortedBefore, OrderPairsBySecondGreater.
    apply Htrans. }
  pose proof (Hsort counts) as Hsorted.
  apply (Sorted_StronglySorted _) in Hsorted.
  exists (filter (λ p, less p.2 minimum = false) (sort counts)).
  assert (Hrows : filter (λ p, less p.2 minimum = false) (sort counts)
                  ≡ₚ filter (λ p, less p.2 minimum = false) counts)
    by (by rewrite Hperm).
  split.
  { unfold vertexLabelRows. rewrite (expressionCounts_spec _ Hlen). simpl.
    fold counts. f_equal. by apply labelRows_filter. }
  split; [done|]. split; [|split].
  - intros geneId x. rewrite Hrows, list_elem_of_filter.
    unfold counts. rewrite imap_geneId_elem_of. simpl. tauto.
  - rewrite Hrows. apply (NoDup_fmap_2_strong fst).
    + intros [g1 x1] [g2 x2] [_ H1]%list_elem_of_filter
        [_ H2]%list_elem_of_filter Heq. simpl in Heq. subst g2.
      apply imap_geneId_elem_of in H1, H2. congruence.
    + apply NoDup_filter. unfold counts. apply NoDup_alt.
      intros i j [g x] Hi Hj. apply list_lookup_imap_Some in Hi, Hj.
      destruct Hi as (y & Hi & [= -> ->]), Hj as (z & Hj & [= Hij _]). lia.
  - assert (Hs : StronglySorted (sortedBefore less)
                   (filter (λ p, less p.2 minimum = false) (sort counts)))
      by (by apply StronglySorted_filter).
    clear Hrows Hsorted. revert Hs.
    generalize (filter (λ p, less p.2 minimum = false) (sort counts)).
    intros rows Hs i j p q Hij Hi Hj. revert i j Hij Hi Hj.
    induction Hs as [|a l Hl IH Hall]; intros i j Hij Hi Hj; [done|].
    destruct i as [|i], j as [|j]; simpl in *; try lia.
    + assert (a = p) as -> by congruence. assert (p = q) as <- by congruence.
      destruct (less p.2 p.2) eqn:E; [|done]. by rewrite (Hasym _ _ E) in E.
    + assert (a = p) as -> by congruence. rewrite Forall_forall in Hall.
      apply (Hall q). by eapply list_elem_of_lookup_2.
    + apply (IH i j); [lia|done|done].
Qed.

Lemma vertexLabelRows_spec_witness :
  (∀ a b, (a <? b)%Z = true → (b <? a)%Z = false)
  ∧ (∀ a b c, (a <? b)%Z = false → (b <? c)%Z = false → (a <? c)%Z = false)
  ∧ (∀ l, merge_sort (sortedBefore Z.ltb) l ≡ₚ l)
  ∧ (∀ l, Sorted (sortedBefore Z.ltb) (merge_sort (sortedBefore Z.ltb) l))
  ∧ (N.of_nat (length [50; 10; 30; 20; 19; 70]%Z) < 4294967296)%N
  ∧ ∃ rows,
      vertexLabelRows (merge_sort (sortedBefore Z.ltb)) Z.ltb 20%Z
        [50; 10; 30; 20; 19; 70]%Z = Some rows
      ∧ rows ≡ₚ [(0%N, 50%Z); (2%N, 30%Z); (3%N, 20%Z); (5%N, 70%Z)].
Proof.
  assert (H1 : ∀ a b, (a <? b)%Z = true → (b <? a)%Z = false)
    by (intros a b; rewrite Z.ltb_lt, Z.ltb_ge; lia).
  assert (H2 : ∀ a b c, (a <? b)%Z = false → (b <? c)%Z = false →
                        (a <? c)%Z = false)
    by (intros a b c; rewrite !Z.ltb_ge; lia).
  assert (H3 : ∀ l : list (N * Z), merge_sort (sortedBefore Z.ltb) l ≡ₚ l)
    by (intros l; apply merge_sort_Permutation).
  assert (Htotal : Total (sortedBefore (S := Z) Z.ltb)).
  { intros p q. unfold sortedBefore, OrderPairsBySecondGreater.
    rewrite !Z.ltb_ge. lia. }
  assert (H4 : ∀ l : list (N * Z),
            Sorted (sortedBefore Z.ltb) (merge_sort (sortedBefore Z.ltb) l))
    by (intros l; apply (Sorted_merge_sort _)).
  assert (H5 : (N.of_nat (length [50; 10; 30; 20; 19; 70]%Z) < 4294967296)%N)
    by (simpl; lia).
  do 5 (split; [done|]).
  destruct (vertexLabelRows_spec (merge_sort (sortedBefore Z.ltb)) Z.ltb 20%Z
              [50; 10; 30; 20; 19; 70]%Z H1 H2 H3 H4) as [Hrows _].
  destruct (Hrows H5) as (rows & Hrun & Hperm & _).
  exists rows. split; [done|]. exact Hperm.
Defined.
